(** * W2NER inference driver: a shallow embedding of [infer.py]

    The development follows the source top-down: Python exceptions as an
    error type, the records that [Trainer.predict] emits, the collaborators
    of the driver (model, optimizer, metrics, [utils.decode]) as an
    interface, then the three passes [train], [eval] and [predict] as
    functions over an explicit world (trainer object, gradient mode,
    event trace, file system).  The grid codec of [data_loader] / [utils]
    is not part of [infer.py]; it is modelled separately at the end. *)

From stdpp Require Import gmap strings list pretty.


(** ** Exceptions *)

(** The Python exception classes the driver can meet.  All of them derive
    from [Exception], so an [except Exception] clause catches each one. *)
Inductive exn :=
  | RuntimeError (msg : string)
  | IndexError
  | KeyError (key : nat)
  | AttributeError (attr : string).

Inductive res (A : Type) :=
  | Ok (a : A)
  | Raise (e : exn).
Arguments Ok {A} a.
Arguments Raise {A} e.

#[global] Instance res_ret : MRet res := λ A a, Ok a.
#[global] Instance res_bind : MBind res := λ A B k m,
  match m with
  | Ok a => k a
  | Raise e => Raise e
  end.

Definition is_ok {A} (r : res A) : bool :=
  match r with Ok _ => true | Raise _ => false end.

(** Evaluation of a list comprehension / for loop whose body may raise:
    elements are visited left to right and the first exception escapes. *)
Fixpoint mapM_res {A B} (f : A → res B) (l : list A) : res (list B) :=
  match l with
  | [] => Ok []
  | a :: l' => b ← f a; bs ← mapM_res f l'; Ok (b :: bs)
  end.

(** ** Python list primitives *)

(** [l[lo:hi]] for non-negative bounds: never raises, clips at the end. *)
Definition slice {A} (l : list A) (lo hi : nat) : list A :=
  take (hi - lo) (drop lo l).

(** [l[x]] for a non-negative index: [IndexError] when out of range. *)
Definition getitem {A} (l : list A) (x : nat) : res A :=
  match l !! x with
  | Some a => Ok a
  | None => Raise IndexError
  end.

(** [torch.cat(ts)] on a Python list of one-dimensional tensors, each kept
    as the list of its cells.  PyTorch rejects an empty list of tensors
    with a [RuntimeError]. *)
Definition torch_cat {A} (ts : list (list A)) : res (list A) :=
  match ts with
  | [] => Raise (RuntimeError "torch.cat(): expected a non-empty list of Tensors")
  | _ => Ok (concat ts)
  end.

(** Boolean-mask indexing [t[mask]]: the cells of [t] whose mask is true,
    in order.  Tensors are flat lists of cells in row-major order. *)
Fixpoint masked_select {A} (t : list A) (mask : list bool) : list A :=
  match t, mask with
  | x :: t', true :: mask' => x :: masked_select t' mask'
  | _ :: t', false :: mask' => masked_select t' mask'
  | _, _ => []
  end.

(** ** Records read and written by the driver *)

(** One element of [ori_data]: a JSON object with a ["sentence"] field. *)
Record datum := { d_sentence : list string }.

(** One element of an ["entity"] list in the output. *)
Record entity_rec := { text : list string; type : string }.

(** One output record, [{"sentence": ..., "entity": [...]}]. *)
Record instance := { sentence : list string; entity : list entity_rec }.

(** A decoded entity as [utils.decode] returns it: [ent[0]] is the list of
    token indices, [ent[1]] the type id. *)
Abbreviation decoded_ent := (list nat * nat)%type.

(** Modelled from the spec: [data_loader.Vocabulary] is not under src/.
    The registry maps dense ids to label strings; [id_to_label] fails with
    a lookup error on an id that is not registered. *)
Record Vocabulary := { id2label : gmap nat string }.

Definition id_to_label (v : Vocabulary) (i : nat) : res string :=
  match id2label v !! i with
  | Some s => Ok s
  | None => Raise (KeyError i)
  end.

(** ** Collaborators *)

(** What [infer.py] imports and calls but does not define: the network,
    the loss, the optimizer, the metric helpers and the grid decoder.
    Floating-point values stay abstract ([score], [loss], [logits]). *)
Class Backend := {
  inputs : Type;      (* bert_inputs, pieces2word, dist_inputs *)
  gold : Type;        (* entity_text *)
  logits : Type;      (* the class scores of one grid cell *)
  params : Type;      (* model parameters *)
  grads : Type;       (* the .grad fields of the parameters *)
  optstate : Type;    (* AdamW state *)
  sched : Type;       (* learning-rate scheduler *)
  loss : Type;
  score : Type;
}.

Section Driver.
Context `{Backend}.

(** A batch as [collate_fn] delivers it; the grids of all sentences of the
    batch are flattened to one list of cells. *)
Record data_batch := {
  bert_inputs : inputs;
  grid_labels : list nat;
  grid_mask2d : list bool;
  pieces2word : inputs;
  dist_inputs : inputs;
  sent_length : list nat;
  entity_text : gold;
}.

Record Ops := {
  (* self.model(bert_inputs, grid_mask2d, dist_inputs, pieces2word, sent_length) *)
  model_call : params → data_batch → res (list logits);
  (* torch.argmax(outputs, -1), cell by cell *)
  argmax : logits → nat;
  (* utils.decode(outputs, entity_text, length) *)
  utils_decode : list nat → gold → list nat → res (nat * nat * nat * list (list decoded_ent));
  (* nn.CrossEntropyLoss() *)
  criterion : list logits → list nat → loss;
  (* loss.backward(): accumulates into the gradients *)
  backward : loss → grads → grads;
  (* torch.nn.utils.clip_grad_norm_(parameters, max_norm) *)
  clip_grad_norm_ : score → grads → grads;
  (* optimizer.step() *)
  optimizer_step : optstate → params → grads → params * optstate;
  (* optimizer.zero_grad() *)
  zero_grad : grads → grads;
  (* scheduler.step() *)
  scheduler_step : sched → optstate → sched * optstate;
  (* precision_recall_fscore_support(labels, preds, average="macro"): (p, r, f1) *)
  macro_prf : list nat → list nat → score * score * score;
  (* f1_score(labels, preds, average=None) *)
  per_label_f1 : list nat → list nat → list score;
  (* utils.cal_f1(c, p, r): (e_f1, e_p, e_r) *)
  cal_f1 : nat → nat → nat → score * score * score;
  (* np.mean(loss_list) *)
  mean_loss : list loss → score;
  (* json.dump(result, f, ensure_ascii=False, indent=4) *)
  json_dump : list instance → string;
}.

Record Config := {
  batch_size : nat;
  clip_grad_norm : score;
  predict_path : string;
  vocab : Vocabulary;
}.

(** ** The Trainer object and the world around it *)

(** The attributes of a [Trainer].  [scheduler] is optional: an attribute
    that was never assigned raises [AttributeError] when read. *)
Record Trainer := {
  model : params;
  training : bool;          (* model.train() / model.eval() *)
  grad : grads;
  optimizer : optstate;
  scheduler : option sched;
}.

(** [Trainer.__init__]: stores the model, builds loss and optimizer.  The
    assignment of [self.scheduler] is commented out in the source. *)
Definition Trainer_init (m : params) (g : grads) (o : optstate) : Trainer :=
  {| model := m; training := true; grad := g; optimizer := o; scheduler := None |}.

Inductive log_entry :=
  | LogExn (e : exn)
  | LogSentenceBatch (sb : list datum)
  | LogDataBatch (b : data_batch)
  | LogLabelF1 (title : string) (f1s : list score)
  | LogTrainTable (epoch : string) (mean f1 p r : score)
  | LogEvalTable (title epoch : string) (f1 p r e_f1 e_p e_r : score).

Inductive event :=
  | EvLog (l : log_entry)                       (* logger.info *)
  | EvModelCall (b : data_batch) (grad_on : bool)
  | EvBackward (l : loss)
  | EvClip (bound : score)
  | EvOptStep
  | EvZeroGrad
  | EvSchedStep
  | EvOpenWrite (path : string) (encoding : string)
  | EvDump (path : string) (content : string).

Record world := {
  trainer : Trainer;
  grad_enabled : bool;      (* torch.is_grad_enabled() *)
  trace : list event;
  fs : gmap string string;  (* file contents by path *)
}.

Definition emit (e : event) (w : world) : world :=
  {| trainer := trainer w; grad_enabled := grad_enabled w;
     trace := trace w ++ [e]; fs := fs w |}.

Definition set_trainer (t : Trainer) (w : world) : world :=
  {| trainer := t; grad_enabled := grad_enabled w; trace := trace w; fs := fs w |}.

Definition set_grad_enabled (b : bool) (w : world) : world :=
  {| trainer := trainer w; grad_enabled := b; trace := trace w; fs := fs w |}.

Definition set_training (b : bool) (t : Trainer) : Trainer :=
  {| model := model t; training := b; grad := grad t;
     optimizer := optimizer t; scheduler := scheduler t |}.

(** [with open(path, "w", encoding="utf-8") as f: json.dump(x, f, ...)]:
    opening in write mode truncates, the dump is the whole new content. *)
Definition write_file (path content : string) (w : world) : world :=
  let w := emit (EvOpenWrite path "utf-8") w in
  let w := emit (EvDump path content) w in
  {| trainer := trainer w; grad_enabled := grad_enabled w;
     trace := trace w; fs := <[path := content]> (fs w) |}.

Variable ops : Ops.
Variable config : Config.

(** The model is invoked under the current gradient mode. *)
Definition invoke_model (w : world) (b : data_batch) : world * res (list logits) :=
  (emit (EvModelCall b (grad_enabled w)) w, model_call ops (model (trainer w)) b).

(** ** Locals of a pass *)

(** The local variables the three passes declare before their loop; each
    pass uses the ones its source initialises. *)
Record locals := {
  i : nat;
  result : list instance;
  loss_list : list loss;
  pred_result : list (list nat);
  label_result : list (list nat);
  total_ent_r : nat;
  total_ent_p : nat;
  total_ent_c : nat;
}.

Definition locals0 : locals :=
  {| i := 0; result := []; loss_list := []; pred_result := [];
     label_result := []; total_ent_r := 0; total_ent_p := 0; total_ent_c := 0 |}.

Definition set_result (r : list instance) (a : locals) : locals :=
  {| i := i a; result := r; loss_list := loss_list a;
     pred_result := pred_result a; label_result := label_result a;
     total_ent_r := total_ent_r a; total_ent_p := total_ent_p a;
     total_ent_c := total_ent_c a |}.

Definition set_i (n : nat) (a : locals) : locals :=
  {| i := n; result := result a; loss_list := loss_list a;
     pred_result := pred_result a; label_result := label_result a;
     total_ent_r := total_ent_r a; total_ent_p := total_ent_p a;
     total_ent_c := total_ent_c a |}.

(** [total_ent_* += ent_*], then the two [append]s of the masked cells. *)
Definition accumulate (ent_c ent_p ent_r : nat) (labels preds : list nat)
    (a : locals) : locals :=
  {| i := i a; result := result a; loss_list := loss_list a;
     pred_result := pred_result a ++ [preds];
     label_result := label_result a ++ [labels];
     total_ent_r := total_ent_r a + ent_r;
     total_ent_p := total_ent_p a + ent_p;
     total_ent_c := total_ent_c a + ent_c |}.

Definition push_loss (l : loss) (a : locals) : locals :=
  {| i := i a; result := result a; loss_list := loss_list a ++ [l];
     pred_result := pred_result a; label_result := label_result a;
     total_ent_r := total_ent_r a; total_ent_p := total_ent_p a;
     total_ent_c := total_ent_c a |}.

(** ** Trainer.train *)

Definition set_grad (g : grads) (t : Trainer) : Trainer :=
  {| model := model t; training := training t; grad := g;
     optimizer := optimizer t; scheduler := scheduler t |}.

(** [loss.backward()] *)
Definition do_backward (l : loss) (w : world) : world :=
  let t := trainer w in
  emit (EvBackward l) (set_trainer (set_grad (backward ops l (grad t)) t) w).

(** [torch.nn.utils.clip_grad_norm_(self.model.parameters(), bound)] *)
Definition do_clip (bound : score) (w : world) : world :=
  let t := trainer w in
  emit (EvClip bound) (set_trainer (set_grad (clip_grad_norm_ ops bound (grad t)) t) w).

(** [self.optimizer.step()] *)
Definition do_step (w : world) : world :=
  let t := trainer w in
  let '(m, o) := optimizer_step ops (optimizer t) (model t) (grad t) in
  emit EvOptStep
    (set_trainer {| model := m; training := training t; grad := grad t;
                    optimizer := o; scheduler := scheduler t |} w).

(** [self.optimizer.zero_grad()] *)
Definition do_zero_grad (w : world) : world :=
  let t := trainer w in
  emit EvZeroGrad (set_trainer (set_grad (zero_grad ops (grad t)) t) w).

(** [self.scheduler.step()]: the attribute is read first. *)
Definition do_scheduler_step (w : world) : world * res unit :=
  let t := trainer w in
  match scheduler t with
  | None => (w, Raise (AttributeError "scheduler"))
  | Some s =>
      let '(s', o) := scheduler_step ops s (optimizer t) in
      (emit EvSchedStep
         (set_trainer {| model := model t; training := training t; grad := grad t;
                         optimizer := o; scheduler := Some s' |} w), Ok ())
  end.

(** The loss of one batch, lines 65-66: both operands are indexed by the
    mask before the criterion sees them. *)
Definition batch_loss (outputs : list logits) (b : data_batch) : loss :=
  criterion ops (masked_select outputs (grid_mask2d b))
                (masked_select (grid_labels b) (grid_mask2d b)).

(** One iteration of the loop of [train].  [Ok] is the normal end of the
    body or [continue]; [Raise] is an exception that leaves the loop. *)
Definition train_step (w : world) (a : locals) (b : data_batch)
    : world * locals * res unit :=
  let '(w, r) := invoke_model w b in
  match r with
  | Raise e =>
      let w := emit (EvLog (LogExn e)) w in
      let w := emit (EvLog (LogDataBatch b)) w in
      (w, a, Ok ())
  | Ok outputs =>
      let l := batch_loss outputs b in
      let w := do_backward l w in
      let w := do_clip (clip_grad_norm config) w in
      let w := do_step w in
      let w := do_zero_grad w in
      let a := push_loss l a in
      let a := accumulate 0 0 0
                 (masked_select (grid_labels b) (grid_mask2d b))
                 (masked_select (argmax ops <$> outputs) (grid_mask2d b)) a in
      let '(w, r) := do_scheduler_step w in
      (w, a, r)
  end.

(** A [for] loop whose body may raise outside any handler. *)
Fixpoint run_loop (step : world → locals → data_batch → world * locals * res unit)
    (data_loader : list data_batch) (w : world) (a : locals)
    : world * locals * res unit :=
  match data_loader with
  | [] => (w, a, Ok ())
  | b :: rest =>
      match step w a b with
      | (w, a, Ok _) => run_loop step rest w a
      | (w, a, Raise e) => (w, a, Raise e)
      end
  end.

Definition train (epoch : string) (data_loader : list data_batch) (w : world)
    : world * res score :=
  let w := set_trainer (set_training true (trainer w)) w in
  match run_loop train_step data_loader w locals0 with
  | (w, a, Raise e) => (w, Raise e)
  | (w, a, Ok _) =>
      match torch_cat (label_result a) with
      | Raise e => (w, Raise e)
      | Ok labels =>
          match torch_cat (pred_result a) with
          | Raise e => (w, Raise e)
          | Ok preds =>
              let '(p, r, f1) := macro_prf ops labels preds in
              let w := emit (EvLog (LogTrainTable epoch (mean_loss ops (loss_list a))
                                      f1 p r)) w in
              (w, Ok f1)
          end
      end
  end.

(** ** Trainer.eval *)

(** [with torch.no_grad(): body]: gradient mode is switched off on entry
    and the previous mode is restored on every exit, also an exceptional
    one. *)
Definition with_no_grad {A} (body : world → world * A) (w : world) : world * A :=
  let saved := grad_enabled w in
  let '(w, x) := body (set_grad_enabled false w) in
  (set_grad_enabled saved w, x).

(** One iteration of the loop of [eval]: there is no handler, an exception
    of the model or of the decoder leaves the loop. *)
Definition eval_step (w : world) (a : locals) (b : data_batch)
    : world * locals * res unit :=
  let '(w, r) := invoke_model w b in
  match r with
  | Raise e => (w, a, Raise e)
  | Ok outputs =>
      let outputs := argmax ops <$> outputs in
      match utils_decode ops outputs (entity_text b) (sent_length b) with
      | Raise e => (w, a, Raise e)
      | Ok (ent_c, ent_p, ent_r, _) =>
          (w, accumulate ent_c ent_p ent_r
                (masked_select (grid_labels b) (grid_mask2d b))
                (masked_select outputs (grid_mask2d b)) a, Ok ())
      end
  end.

(** Lines 130-148 and 210-227: concatenate, score, log the two tables. *)
Definition summarise (title epoch : string) (a : locals) (w : world)
    : world * res score :=
  match torch_cat (label_result a) with
  | Raise e => (w, Raise e)
  | Ok labels =>
      match torch_cat (pred_result a) with
      | Raise e => (w, Raise e)
      | Ok preds =>
          let '(p, r, f1) := macro_prf ops labels preds in
          let '(e_f1, e_p, e_r) :=
            cal_f1 ops (total_ent_c a) (total_ent_p a) (total_ent_r a) in
          let w := emit (EvLog (LogLabelF1 title (per_label_f1 ops labels preds))) w in
          let w := emit (EvLog (LogEvalTable title epoch f1 p r e_f1 e_p e_r)) w in
          (w, Ok e_f1)
      end
  end.

Definition eval (epoch : string) (data_loader : list data_batch) (is_test : bool)
    (w : world) : world * res score :=
  let w := set_trainer (set_training false (trainer w)) w in
  match with_no_grad (λ w, let '(w, a, r) := run_loop eval_step data_loader w locals0
                           in (w, (a, r))) w with
  | (w, (a, Raise e)) => (w, Raise e)
  | (w, (a, Ok _)) =>
      summarise (if is_test then "TEST" else "EVAL") epoch a w
  end.

(** ** Trainer.predict *)

(** Lines 183-184: the dictionary literal evaluates ["text"] first, then
    ["type"]; an out-of-range index or an unknown id raises. *)
Definition build_entity (sent : list string) (ent : decoded_ent) : res entity_rec :=
  txt ← mapM_res (getitem sent) ent.1;
  ty ← id_to_label (vocab config) ent.2;
  Ok {| text := txt; type := ty |}.

(** Lines 180-184: the record of one sentence, before it is appended. *)
Definition build_instance (ent_list : list decoded_ent) (d : datum) : res instance :=
  ents ← mapM_res (build_entity (d_sentence d)) ent_list;
  Ok {| sentence := d_sentence d; entity := ents |}.

(** Lines 179-185: the loop over [zip(decode_entities, sentence_batch)].
    Every completed record is appended to [result] at once, so the
    appends made before an exception stay. *)
Fixpoint emit_records (pairs : list (list decoded_ent * datum))
    (result : list instance) : list instance * res unit :=
  match pairs with
  | [] => (result, Ok ())
  | (ent_list, d) :: rest =>
      match build_instance ent_list d with
      | Ok inst => emit_records rest (result ++ [inst])
      | Raise e => (result, Raise e)
      end
  end.

(** Lines 201-204: one record without entities per sentence of the batch. *)
Definition empty_records (sentence_batch : list datum) : list instance :=
  (λ d, {| sentence := d_sentence d; entity := [] |}) <$> sentence_batch.

Section Predict.
Variable data : list datum.

(** Line 166. *)
Definition sentence_batch_at (a : locals) : list datum :=
  slice data (i a) (i a + batch_size config).

(** The body of the [try], lines 166-196. *)
Definition predict_try (w : world) (a : locals) (b : data_batch)
    : world * locals * res unit :=
  let sentence_batch := sentence_batch_at a in
  let '(w, r) := invoke_model w b in
  match r with
  | Raise e => (w, a, Raise e)
  | Ok outputs =>
      let outputs := argmax ops <$> outputs in
      match utils_decode ops outputs (entity_text b) (sent_length b) with
      | Raise e => (w, a, Raise e)
      | Ok (ent_c, ent_p, ent_r, decode_entities) =>
          let '(result', r) :=
            emit_records (zip decode_entities sentence_batch) (result a) in
          let a := set_result result' a in
          match r with
          | Raise e => (w, a, Raise e)
          | Ok _ =>
              let a := accumulate ent_c ent_p ent_r
                         (masked_select (grid_labels b) (grid_mask2d b))
                         (masked_select outputs (grid_mask2d b)) a in
              (w, set_i (i a + batch_size config) a, Ok ())
          end
      end
  end.

(** One iteration of the loop of [predict]: the [try] and its handler,
    lines 197-207.  The handler never re-raises. *)
Definition predict_step (w : world) (a : locals) (b : data_batch) : world * locals :=
  let sentence_batch := sentence_batch_at a in
  match predict_try w a b with
  | (w, a, Ok _) => (w, a)
  | (w, a, Raise e) =>
      let w := emit (EvLog (LogExn e)) w in
      let w := emit (EvLog (LogSentenceBatch sentence_batch)) w in
      let w := emit (EvLog (LogDataBatch b)) w in
      let a := set_result (result a ++ empty_records sentence_batch) a in
      (w, set_i (i a + batch_size config) a)
  end.

Fixpoint predict_loop (data_loader : list data_batch) (w : world) (a : locals)
    : world * locals :=
  match data_loader with
  | [] => (w, a)
  | b :: rest => let '(w, a) := predict_step w a b in predict_loop rest w a
  end.

Definition predict (epoch : string) (data_loader : list data_batch) (w : world)
    : world * res score :=
  let w := set_trainer (set_training false (trainer w)) w in
  let '(w, a) := with_no_grad (λ w, predict_loop data_loader w locals0) w in
  match summarise "TEST" epoch a w with
  | (w, Raise e) => (w, Raise e)
  | (w, Ok e_f1) =>
      (write_file (predict_path config) (json_dump ops (result a)) w, Ok e_f1)
  end.

End Predict.

End Driver.

(** * GridCodec

    [infer.py] only calls the decoder; the encoder lives in [data_loader]
    and the decoder in [utils], neither of which is under src/.  Both are
    modelled here from the specification's description (section 4.1). *)

Module GridCodec.

(** An entity span: its token indices in the order they are walked, and
    its type id. *)
Abbreviation span := (list nat * nat)%type.

(** An L×L matrix of label ids, as a list of rows. *)
Abbreviation grid := (list (list nat)).

(** Modelled from the spec: label 0 is "no relation"; the continuation
    label is the next small integer; every other id is an entity type. *)
Definition NONE : nat := 0.
Definition CONT : nat := 1.

Definition is_type (t : nat) : Prop := t ≠ NONE ∧ t ≠ CONT.

#[global] Instance is_type_dec t : Decision (is_type t) :=
  ltac:(unfold is_type; apply _).

Definition empty_grid (L : nat) : grid := replicate L (replicate L NONE).

(** Reading a cell; positions outside the matrix hold no relation. *)
Definition cell (g : grid) (i j : nat) : nat :=
  default NONE (row ← g !! i; row !! j).

(** Writing a cell. *)
Definition mark (i j v : nat) (g : grid) : grid :=
  alter (λ row, <[j := v]> row) i g.

(** Modelled from the spec: "walk its token indices in order, marking
    adjacency-chain cells between consecutive tokens in the span with a
    continuation label". *)
Fixpoint mark_chain (idx : list nat) (g : grid) : grid :=
  match idx with
  | a :: (b :: _) as rest => mark_chain rest (mark a b CONT g)
  | _ => g
  end.

(** Modelled from the spec: "... and mark a closing cell linking the
    span's last token back to its first token with the span's type
    label". *)
Definition encode_span (g : grid) (s : span) : grid :=
  match head s.1, last s.1 with
  | Some h, Some t => mark t h s.2 (mark_chain s.1 g)
  | _, _ => g
  end.

(** Modelled from the spec: [encode(sentence, spans) → LabelGrid]; the
    grid dimensions equal the sentence length. *)
Definition encode (sentence : list string) (spans : list span) : grid :=
  foldl encode_span (empty_grid (length sentence)) spans.

(** Modelled from the spec, step 1: a cell (i,j) carrying the continuation
    label is a directed edge i→j; only the first [L] tokens count. *)
Definition successors (g : grid) (L i : nat) : list nat :=
  filter (λ j, cell g i j = CONT) (seq 0 L).

(** A node with no incoming continuation edge is a valid span start. *)
Definition is_start (g : grid) (L j : nat) : Prop :=
  Forall (λ i, cell g i j ≠ CONT) (seq 0 L).

#[global] Instance is_start_dec g L j : Decision (is_start g L j) :=
  ltac:(unfold is_start; apply _).

(** Modelled from the spec, step 2: traverse forward from [cur], which
    extends [path], collecting every intermediate path; a node is never
    revisited within one path and the depth is bounded by [fuel]. *)
Fixpoint walk (fuel : nat) (g : grid) (L : nat) (path : list nat) (cur : nat)
    : list (list nat) :=
  let here := path ++ [cur] in
  here ::
  match fuel with
  | 0 => []
  | S fuel' =>
      j ← filter (λ j, j ∉ here) (successors g L cur);
      walk fuel' g L here j
  end.

Definition paths (g : grid) (L : nat) : list (list nat) :=
  s ← filter (is_start g L) (seq 0 L);
  walk L g L [] s.

(** Modelled from the spec, step 3: the type-closure edge from the last
    token of a path back to its first token, if the grid has one. *)
Definition closure_type (g : grid) (p : list nat) : option nat :=
  match head p, last p with
  | Some h, Some t =>
      let ty := cell g t h in
      if decide (is_type ty) then Some ty else None
  | _, _ => None
  end.

(** Modelled from the spec, step 4: deduplicate decoded entities by their
    frozen token-index set; the first one found wins. *)
Fixpoint dedup_by_tokens (seen : list (gset nat)) (es : list span) : list span :=
  match es with
  | [] => []
  | e :: es' =>
      let k : gset nat := list_to_set e.1 in
      if decide (k ∈ seen) then dedup_by_tokens seen es'
      else e :: dedup_by_tokens (k :: seen) es'
  end.

(** Modelled from the spec: the decoded entities of one sentence of true
    length [L] (steps 1-4 of [decode]). *)
Definition decode (g : grid) (L : nat) : list span :=
  dedup_by_tokens []
    (omap (λ p, t ← closure_type g p; Some (p, t)) (paths g L)).

(** A well-formed span set for a sentence of length [L]: every span is
    non-empty, holds indices below [L] and carries a type label; no token
    index occurs twice, neither within a span nor in two spans. *)
Definition well_formed (L : nat) (spans : list span) : Prop :=
  Forall (λ s : span, s.1 ≠ [] ∧ Forall (λ x, x < L) s.1 ∧ is_type s.2) spans
  ∧ NoDup (concat (spans.*1)).

(** *** Predicates used to reason about the codec *)

(** [g] is an L×L matrix. *)
Definition dims (L : nat) (g : grid) : Prop :=
  length g = L ∧ Forall (λ row, length row = L) g.

(** [a] is immediately followed by [b] in [idx]. *)
Definition adj (idx : list nat) (a b : nat) : Prop :=
  ∃ l1 l2, idx = l1 ++ a :: b :: l2.

(** The grid holds a continuation mark exactly between consecutive tokens
    of a span, and a type label exactly on the tail→head cell of a span
    of that type. *)
Record encodes (L : nat) (spans : list span) (g : grid) : Prop := {
  enc_dims : dims L g;
  enc_cont : ∀ a b, cell g a b = CONT ↔ ∃ s, s ∈ spans ∧ adj s.1 a b;
  enc_type : ∀ a b ty, is_type ty →
    (cell g a b = ty ↔
     ∃ s, s ∈ spans ∧ s.2 = ty ∧ head s.1 = Some b ∧ last s.1 = Some a);
}.

(** Consecutive tokens of [p] are linked by continuation edges of [g]. *)
Definition chain (g : grid) (p : list nat) : Prop :=
  ∀ a b, adj p a b → cell g a b = CONT.

End GridCodec.

(** * Auxiliary notions for the driver *)

Section DriverSpec.
Context `{Backend}.

(** The events a pass without training may produce: log lines, and model
    invocations made while gradient mode is off. *)
Definition inference_event (ev : event) : Prop :=
  match ev with
  | EvLog _ => True
  | EvModelCall _ grad_on => grad_on = false
  | _ => False
  end.

(** Model, then argmax, then decoder on one batch, as lines 112-118 and
    171-177 chain them. *)
Definition forward_decode (ops : Ops) (m : params) (b : data_batch)
    : res (nat * nat * nat * list (list decoded_ent)) :=
  outputs ← model_call ops m b;
  utils_decode ops (argmax ops <$> outputs) (entity_text b) (sent_length b).

(** The world and the locals [predict] holds when its loop ends. *)
Definition predict_loop_end (ops : Ops) (config : Config) (data : list datum)
    (data_loader : list data_batch) (w : world) : world * locals :=
  predict_loop ops config data data_loader
    (set_grad_enabled false (set_trainer (set_training false (trainer w)) w))
    locals0.

(** The records a whole prediction loop accumulates. *)
Definition predict_records (ops : Ops) (config : Config) (data : list datum)
    (data_loader : list data_batch) (w : world) : list instance :=
  result (predict_loop_end ops config data data_loader w).2.

(** Appending events to the trace. *)
Definition emit_all (evs : list event) (w : world) : world :=
  {| trainer := trainer w; grad_enabled := grad_enabled w;
     trace := trace w ++ evs; fs := fs w |}.

Definition is_file_event (ev : event) : bool :=
  match ev with
  | EvOpenWrite _ _ | EvDump _ _ => true
  | _ => false
  end.

End DriverSpec.

(** * A scripted backend

    Concrete collaborators for running the driver: every batch carries
    the outcome scripted for it.  [bert_inputs] holds the cells the model
    returns ([None]: the model raises), [entity_text] holds the entity
    lists the decoder returns ([None]: the decoder raises). *)

Module Scripted.

#[export] Instance backend : Backend := {|
  inputs := option (list nat);
  gold := option (list (list decoded_ent));
  logits := nat;
  params := nat;
  grads := nat;
  optstate := nat;
  sched := unit;
  loss := nat;
  score := nat;
|}.

Definition dump_entity (e : entity_rec) : string :=
  "{text: " +:+ String.concat " " (text e) +:+ ", type: " +:+ type e +:+ "}".

Definition dump_instance (r : instance) : string :=
  "{sentence: " +:+ String.concat " " (sentence r) +:+ ", entity: ["
    +:+ String.concat ", " (dump_entity <$> entity r) +:+ "]}".

Definition ops : Ops := {|
  model_call := λ _ b,
    match bert_inputs b with
    | Some cells => Ok cells
    | None => Raise (RuntimeError "CUDA out of memory")
    end;
  argmax := λ x, x;
  utils_decode := λ _ scripted _,
    match scripted with
    | Some ents => Ok (0, length (concat ents), 0, ents)
    | None => Raise (RuntimeError "decode failed")
    end;
  criterion := λ outs labels, length outs + length labels;
  backward := λ l g, g + l;
  clip_grad_norm_ := λ bound g, g `min` bound;
  optimizer_step := λ o m g, (m + g, S o);
  zero_grad := λ _, 0;
  scheduler_step := λ s o, (s, o);
  macro_prf := λ _ _, (0, 0, 0);
  per_label_f1 := λ _ _, [];
  cal_f1 := λ c p r, (c, p, r);
  mean_loss := λ ls, length ls;
  json_dump := λ rs, "[" +:+ String.concat ", " (dump_instance <$> rs) +:+ "]";
|}.

Definition config : Config := {|
  batch_size := 2;
  clip_grad_norm := 5;
  predict_path := "output.json";
  vocab := {| id2label := {[ 2 := "PER" ]} |};
|}.

Definition mk_batch (model_out : option (list nat))
    (decoded : option (list (list decoded_ent))) : data_batch := {|
  bert_inputs := model_out;
  grid_labels := [2; 0; 0; 0];
  grid_mask2d := [true; false; false; false];
  pieces2word := None;
  dist_inputs := None;
  sent_length := [1];
  entity_text := decoded;
|}.

(** A world whose trainer comes from [Trainer.__init__] and whose output
    file still holds the text of an earlier run. *)
Definition w0 : world := {|
  trainer := Trainer_init 10 0 0;
  grad_enabled := true;
  trace := [];
  fs := {[ "output.json" := "stale" ]};
|}.

Definition d0 : datum := {| d_sentence := ["John"; "lives"] |}.
Definition d1 : datum := {| d_sentence := ["Paris"] |}.
Definition d2 : datum := {| d_sentence := ["rain"] |}.

(** The model raises on this batch. *)
Definition b_model_fails : data_batch := mk_batch None (Some [[]]).

(** The whole batch goes through. *)
Definition b_good : data_batch := mk_batch (Some [2; 0; 0; 0]) (Some [[([0], 2)]]).

(** Model and decoder succeed, but the entity decoded for the second
    sentence points at token 7, which that sentence does not have. *)
Definition b_partial : data_batch :=
  mk_batch (Some [2; 0; 0; 0]) (Some [[([0], 2)]; [([7], 2)]]).

End Scripted.

(** * The rest of the driver

    The parts of [infer.py] around the three passes: the parameter groups
    [Trainer.__init__] hands to the optimizer, and the preparation of the
    inputs of [predict] in the main block. *)

(** ** Trainer.__init__: parameter groups *)

(** Python's [nd in n] on strings: [nd] occurs in [n] as a substring. *)
Fixpoint contains (n nd : string) : bool :=
  String.prefix nd n ||
  match n with
  | EmptyString => false
  | String _ n' => contains n' nd
  end.

(** Line 27. *)
Definition no_decay : list string := ["bias"; "LayerNorm.weight"]%string.

(** [any(nd in n for nd in no_decay)] *)
Definition is_no_decay (n : string) : bool := existsb (contains n) no_decay.

Section ParamGroups.
Context `{Backend}.

(** One dictionary of the list [params]; a parameter tensor is identified
    by a number. *)
Record param_group := {
  pg_params : list nat;
  pg_lr : score;
  pg_weight_decay : score;
}.

(** Lines 25-38.  [bert_named] is [self.model.bert.named_parameters()],
    [model_params] is [self.model.parameters()], [zero] is [0.0]. *)
Definition param_groups (bert_named : list (string * nat)) (model_params : list nat)
    (bert_learning_rate learning_rate weight_decay zero : score)
    : list param_group :=
  let bert_params : gset nat := list_to_set (bert_named.*2) in
  let other_params := elements (list_to_set model_params ∖ bert_params) in
  [ {| pg_params := (filter (λ np, is_no_decay np.1 = false) bert_named).*2;
       pg_lr := bert_learning_rate;
       pg_weight_decay := weight_decay |};
    {| pg_params := (filter (λ np, is_no_decay np.1 = true) bert_named).*2;
       pg_lr := bert_learning_rate;
       pg_weight_decay := zero |};
    {| pg_params := other_params;
       pg_lr := learning_rate;
       pg_weight_decay := weight_decay |} ].

End ParamGroups.

(** ** The main block: inputs of predict *)

(** Lines 327-332: the records with an empty sentence are dropped. *)
Definition drop_empty (ori_data : list datum) : list datum :=
  foldl (λ temp_list data,
           if length (d_sentence data) =? 0 then temp_list
           else temp_list ++ [data]) [] ori_data.

(** Line 324: the output path of run [i]. *)
Definition predict_path_for (i : nat) : string :=
  "/home/disk1/dgt2021/seretod/W2NER/output/sf/converted_output" +:+ pretty i
    +:+ ".json".

(** Lines 334-339: a [DataLoader] with [shuffle=False] and
    [drop_last=False] delivers the items in order, [batch_size] at a
    time, the last batch holding what is left; [collate_fn] turns each
    group of items into a batch. *)
Fixpoint batches_of {A} (fuel batch_size : nat) (dataset : list A) : list (list A) :=
  match fuel, dataset with
  | S fuel', _ :: _ =>
      take batch_size dataset :: batches_of fuel' batch_size (drop batch_size dataset)
  | _, _ => []
  end.

Definition DataLoader {A B} (dataset : list A) (batch_size : nat)
    (collate_fn : list A → B) : list B :=
  collate_fn <$> batches_of (length dataset) batch_size dataset.

(** ** Notions for stating what a pass computes *)

Section DriverMore.
Context `{Backend}.

(** The records lines 179-185 build for a batch when nothing raises. *)
Definition batch_records (config : Config) (ents : list (list decoded_ent))
    (sb : list datum) : res (list instance) :=
  mapM_res (λ pr, build_instance config pr.1 pr.2) (zip ents sb).

(** Whether the [try] body of [predict] runs to its end on batch [b] when
    the sentence offset is [off]. *)
Definition goes_through (ops : Ops) (config : Config) (m : params)
    (data : list datum) (off : nat) (b : data_batch) : bool :=
  match forward_decode ops m b with
  | Ok (_, ents) =>
      is_ok (batch_records config ents (slice data off (off + batch_size config)))
  | Raise _ => false
  end.

(** A batch of [predict] whose exceptions, if any, come from the model or
    the decoder, and whose decoder otherwise returns one entity list per
    sentence of the batch. *)
Definition clean_batch (ops : Ops) (config : Config) (m : params)
    (data : list datum) (off : nat) (b : data_batch) : Prop :=
  match forward_decode ops m b with
  | Ok (_, ents) =>
      length ents = length (slice data off (off + batch_size config))
      ∧ is_ok (batch_records config ents
                 (slice data off (off + batch_size config))) = true
  | Raise _ => True
  end.

(** Log lines, and model invocations made in gradient mode [g]. *)
Definition log_or_call (g : bool) (ev : event) : Prop :=
  match ev with
  | EvLog _ => True
  | EvModelCall _ g' => g' = g
  | _ => False
  end.

(** The exception that ends the [try] body of [predict] on batch [b] at
    sentence offset [off], if any: the one of the model, of the decoder,
    or of the first record that cannot be built. *)
Definition batch_failure (ops : Ops) (config : Config) (m : params)
    (data : list datum) (off : nat) (b : data_batch) : option exn :=
  match forward_decode ops m b with
  | Raise e => Some e
  | Ok (_, ents) =>
      match batch_records config ents (slice data off (off + batch_size config)) with
      | Raise e => Some e
      | Ok _ => None
      end
  end.

(** The events one iteration of [predict] leaves, gradient mode off. *)
Definition predict_block (ops : Ops) (config : Config) (m : params)
    (data : list datum) (off : nat) (b : data_batch) : list event :=
  match batch_failure ops config m data off b with
  | None => [EvModelCall b false]
  | Some e =>
      [EvModelCall b false; EvLog (LogExn e);
       EvLog (LogSentenceBatch (slice data off (off + batch_size config)));
       EvLog (LogDataBatch b)]
  end.

(** The entity counts of the batches of [predict] that went through. *)
Fixpoint predict_counts (ops : Ops) (config : Config) (m : params)
    (data : list datum) (off : nat) (data_loader : list data_batch)
    (acc : nat * nat * nat) : nat * nat * nat :=
  match data_loader with
  | [] => acc
  | b :: rest =>
      predict_counts ops config m data (off + batch_size config) rest
        (match batch_failure ops config m data off b, forward_decode ops m b with
         | None, Ok (c, p, r, _) => (acc.1.1 + c, acc.1.2 + p, acc.2 + r)
         | _, _ => acc
         end)
  end.

(** The events of one iteration of [train]. *)
Definition skipped_block (b : data_batch) (g : bool) (e : exn) : list event :=
  [EvModelCall b g; EvLog (LogExn e); EvLog (LogDataBatch b)].

Definition update_block (bound : score) (b : data_batch) (g : bool) (l : loss)
    : list event :=
  [EvModelCall b g; EvBackward l; EvClip bound; EvOptStep; EvZeroGrad].

Definition train_block (bound : score) (blk : list event) : Prop :=
  (∃ b g e, blk = skipped_block b g e)
  ∨ (∃ b g l, blk = update_block bound b g l
              ∨ blk = update_block bound b g l ++ [EvSchedStep]).

(** Entity counts summed over the batches, as [total_ent_* += ent_*]. *)
Fixpoint sum_counts (ops : Ops) (m : params) (data_loader : list data_batch)
    (acc : nat * nat * nat) : nat * nat * nat :=
  match data_loader with
  | [] => acc
  | b :: rest =>
      match forward_decode ops m b with
      | Ok (c, p, r, _) =>
          sum_counts ops m rest (acc.1.1 + c, acc.1.2 + p, acc.2 + r)
      | Raise _ => sum_counts ops m rest acc
      end
  end.

(** The masked gold cells and the masked predicted cells of a batch. *)
Definition masked_labels (b : data_batch) : list nat :=
  masked_select (grid_labels b) (grid_mask2d b).

Definition masked_preds (ops : Ops) (m : params) (b : data_batch) : list nat :=
  match model_call ops m b with
  | Ok outputs => masked_select (argmax ops <$> outputs) (grid_mask2d b)
  | Raise _ => []
  end.

End DriverMore.

(** * Properties of the grid codec *)

Module GridCodecFacts.
Import GridCodec.

Example gc_ex1 :
  GridCodec.decode (GridCodec.encode ["a";"b";"c";"d";"e"] [([1;4], 2); ([2;3], 3); ([0], 2)]) 5
  = [([0], 2); ([1;4], 2); ([2;3], 3)].
Proof. vm_compute. reflexivity. Qed.

(** ** Cells and marks *)

Lemma dims_empty L : dims L (empty_grid L).
Proof.
  split; [apply length_replicate|].
  apply Forall_replicate, length_replicate.
Qed.

Lemma dims_mark L i j v g : dims L g → dims L (mark i j v g).
Proof.
  intros [Hl Hr]. split; unfold mark.
  - by rewrite length_alter.
  - apply Forall_alter; [done|]. intros row _ Hrow. by rewrite length_insert.
Qed.

Lemma cell_mark_eq L i j v g :
  dims L g → i < L → j < L → cell (mark i j v g) i j = v.
Proof.
  intros [Hl Hr] Hi Hj. unfold cell, mark.
  rewrite list_lookup_alter_eq.
  destruct (lookup_lt_is_Some_2 g i) as [row Hrow]; [lia|].
  rewrite Hrow. simpl.
  rewrite list_lookup_insert_eq; [done|].
  rewrite Forall_lookup in Hr. rewrite (Hr _ _ Hrow). lia.
Qed.

Lemma cell_mark_ne i j v g i' j' :
  (i, j) ≠ (i', j') → cell (mark i j v g) i' j' = cell g i' j'.
Proof.
  intros Hne. unfold cell, mark.
  destruct (decide (i = i')) as [->|Hi].
  - rewrite list_lookup_alter_eq. destruct (g !! i') as [row|]; simpl; [|done].
    rewrite list_lookup_insert_ne; [done|]. congruence.
  - by rewrite list_lookup_alter_ne.
Qed.

Lemma cell_empty L i j : cell (empty_grid L) i j = NONE.
Proof.
  unfold cell, empty_grid.
  destruct (replicate L (replicate L NONE) !! i) as [row|] eqn:E; simpl; [|done].
  apply lookup_replicate in E as [-> _].
  destruct (replicate L NONE !! j) as [x|] eqn:E'; simpl; [|done].
  by apply lookup_replicate in E' as [-> _].
Qed.

(** ** Adjacency within a span *)

Lemma adj_cons_inv x idx a b :
  adj (x :: idx) a b → (x = a ∧ head idx = Some b) ∨ adj idx a b.
Proof.
  intros ([|y l1] & l2 & E); simplify_eq/=.
  - by left.
  - right. by exists l1, l2.
Qed.

Lemma adj_cons x idx a b : adj idx a b → adj (x :: idx) a b.
Proof. intros (l1 & l2 & ->). by exists (x :: l1), l2. Qed.

Lemma adj_head a b l : adj (a :: b :: l) a b.
Proof. by exists [], l. Qed.

Lemma adj_elem_l idx a b : adj idx a b → a ∈ idx.
Proof. intros (l1 & l2 & ->). set_solver. Qed.

Lemma adj_elem_r idx a b : adj idx a b → b ∈ idx.
Proof. intros (l1 & l2 & ->). set_solver. Qed.

Lemma adj_lookup idx a b :
  adj idx a b ↔ ∃ k, idx !! k = Some a ∧ idx !! S k = Some b.
Proof.
  split.
  - intros (l1 & l2 & ->). exists (length l1).
    rewrite !lookup_app_r; [|lia..].
    replace (S (length l1) - length l1) with 1 by lia.
    by rewrite Nat.sub_diag.
  - intros (k & Ha & Hb).
    exists (take k idx), (drop (S (S k)) idx).
    rewrite <-(take_drop k idx) at 1. f_equal.
    rewrite (drop_S _ _ _ Ha), (drop_S _ _ _ Hb). done.
Qed.

(** The last token of a duplicate-free span has no successor in it, and
    the first token has no predecessor. *)
Lemma adj_last_no_succ idx t b :
  NoDup idx → last idx = Some t → ¬ adj idx t b.
Proof.
  intros Hnd Hl (k & Ha & Hb)%adj_lookup.
  rewrite last_lookup in Hl.
  assert (k = pred (length idx)) as -> by eauto using NoDup_lookup.
  apply lookup_lt_Some in Hb. lia.
Qed.

Lemma adj_head_no_pred idx h a :
  NoDup idx → head idx = Some h → ¬ adj idx a h.
Proof.
  intros Hnd Hh (k & Ha & Hb)%adj_lookup.
  rewrite head_lookup in Hh.
  assert (S k = 0); [|lia].
  eapply NoDup_lookup; eauto.
Qed.

Lemma cell_mark_cases i j v g a b :
  cell (mark i j v g) a b = cell g a b
  ∨ ((i, j) = (a, b) ∧ cell (mark i j v g) a b = v).
Proof.
  destruct (decide ((i, j) = (a, b))) as [[= -> ->]|Hne].
  - unfold cell, mark. rewrite list_lookup_alter_eq.
    destruct (g !! a) as [row|]; simpl; [|by left].
    destruct (decide (b < length row)).
    + right. by rewrite list_lookup_insert_eq.
    + left. by rewrite list_insert_ge by lia.
  - left. by apply cell_mark_ne.
Qed.

(** ** The chain of continuation marks of one span *)

Lemma mark_chain_step x y idx g :
  mark_chain (x :: y :: idx) g = mark_chain (y :: idx) (mark x y CONT g).
Proof. reflexivity. Qed.

Lemma dims_mark_chain L idx g : dims L g → dims L (mark_chain idx g).
Proof.
  revert g. induction idx as [|a [|b idx] IH]; intros g Hg; [done..|].
  rewrite mark_chain_step. apply IH, dims_mark, Hg.
Qed.

Lemma mark_chain_keeps_cont idx g a b :
  cell g a b = CONT → cell (mark_chain idx g) a b = CONT.
Proof.
  revert g. induction idx as [|x [|y idx] IH]; intros g Hc; [done..|].
  rewrite mark_chain_step.
  apply IH. destruct (cell_mark_cases x y CONT g a b) as [->|[_ ->]]; done.
Qed.

Lemma cell_mark_chain_cases idx g a b :
  cell (mark_chain idx g) a b = cell g a b
  ∨ (adj idx a b ∧ cell (mark_chain idx g) a b = CONT).
Proof.
  revert g. induction idx as [|x [|y idx] IH]; intros g; [by left..|].
  rewrite mark_chain_step.
  destruct (IH (mark x y CONT g)) as [E|[Hadj E]].
  - rewrite E.
    destruct (cell_mark_cases x y CONT g a b) as [->|[[= -> ->] E']]; [by left|].
    right. split; [apply adj_head | done].
  - right. split; [by apply adj_cons | done].
Qed.

Lemma cell_mark_chain_adj L idx g a b :
  dims L g → Forall (λ x, x < L) idx → adj idx a b →
  cell (mark_chain idx g) a b = CONT.
Proof.
  revert g. induction idx as [|x [|y idx] IH]; intros g Hg Hb Hadj.
  - destruct Hadj as ([|??] & ? & ?); simplify_eq.
  - destruct Hadj as ([|?[|??]] & ? & ?); simplify_eq.
  - rewrite mark_chain_step. apply adj_cons_inv in Hadj as [[-> [= ->]]|Hadj].
    + apply mark_chain_keeps_cont.
      inversion Hb as [|?? Ha Hb']; subst. inversion Hb'; subst.
      by apply (cell_mark_eq L).
    + apply IH; [by apply dims_mark | by inversion Hb | done].
Qed.

(** ** One encoded span *)

Section EncodeSpan.
Context (L : nat) (g : grid) (idx : list nat) (ty h t : nat).
Hypothesis Hg : dims L g.
Hypothesis Hbound : Forall (λ x, x < L) idx.
Hypothesis Hnd : NoDup idx.
Hypothesis Hhead : head idx = Some h.
Hypothesis Hlast : last idx = Some t.

Lemma encode_span_unfold :
  encode_span g (idx, ty) = mark t h ty (mark_chain idx g).
Proof. unfold encode_span. simpl. by rewrite Hhead, Hlast. Qed.

Lemma dims_encode_span : dims L (encode_span g (idx, ty)).
Proof.
  rewrite encode_span_unfold. by apply dims_mark, dims_mark_chain.
Qed.

Lemma head_lt : h < L.
Proof.
  rewrite Forall_forall in Hbound. apply Hbound.
  rewrite head_lookup in Hhead. by eapply list_elem_of_lookup_2.
Qed.

Lemma last_lt : t < L.
Proof.
  rewrite Forall_forall in Hbound. apply Hbound.
  rewrite last_lookup in Hlast. by eapply list_elem_of_lookup_2.
Qed.

Lemma cell_encode_span_closure : cell (encode_span g (idx, ty)) t h = ty.
Proof.
  rewrite encode_span_unfold.
  apply (cell_mark_eq L); [by apply dims_mark_chain | apply last_lt | apply head_lt].
Qed.

Lemma cell_encode_span_adj a b :
  adj idx a b → cell (encode_span g (idx, ty)) a b = CONT.
Proof.
  intros Hadj. rewrite encode_span_unfold.
  rewrite cell_mark_ne.
  - by apply (cell_mark_chain_adj L).
  - intros [= -> ->]. by eapply adj_last_no_succ.
Qed.

Lemma cell_encode_span_cases a b :
  (a = t ∧ b = h ∧ cell (encode_span g (idx, ty)) a b = ty)
  ∨ (adj idx a b ∧ cell (encode_span g (idx, ty)) a b = CONT)
  ∨ ((a, b) ≠ (t, h) ∧ ¬ adj idx a b
     ∧ cell (encode_span g (idx, ty)) a b = cell g a b).
Proof.
  destruct (decide ((a, b) = (t, h))) as [[= -> ->]|Hne].
  { left. by rewrite cell_encode_span_closure. }
  right.
  destruct (cell_mark_chain_cases idx g a b) as [E|[Hadj E]].
  - destruct (decide (cell g a b = CONT)) as [Hc|Hc].
    + (* an older continuation mark: is it also one of this span? *)
      destruct (decide (Exists (λ k, idx !! k = Some a ∧ idx !! S k = Some b)
                          (seq 0 (length idx)))) as [Hex|Hnex].
      * left. apply Exists_exists in Hex as (k & _ & Hk).
        assert (adj idx a b) by (apply adj_lookup; eauto).
        split; [done | by apply cell_encode_span_adj].
      * right. split_and!; [done| |].
        -- intros (k & Ha & Hb)%adj_lookup. apply Hnex, Exists_exists.
           exists k. split; [|done]. apply elem_of_seq.
           apply lookup_lt_Some in Ha. lia.
        -- rewrite encode_span_unfold, cell_mark_ne, E; [done|congruence].
    + right. split_and!; [done| |].
      * intros Hadj. apply Hc. rewrite <-E. by apply (cell_mark_chain_adj L).
      * rewrite encode_span_unfold, cell_mark_ne, E; [done|congruence].
  - left. split; [done | by apply cell_encode_span_adj].
Qed.

End EncodeSpan.

(** ** Well-formed span sets *)

Lemma elem_of_concat_fst (spans : list span) s x :
  s ∈ spans → x ∈ s.1 → x ∈ concat (spans.*1).
Proof.
  intros Hs Hx. apply list_elem_of_In, in_concat. exists s.1.
  split; apply list_elem_of_In; [by apply list_elem_of_fmap_2 | done].
Qed.

Lemma well_formed_snoc L spans s :
  well_formed L (spans ++ [s]) →
  well_formed L spans
  ∧ s.1 ≠ [] ∧ Forall (λ x, x < L) s.1 ∧ is_type s.2 ∧ NoDup s.1
  ∧ (∀ s0 x, s0 ∈ spans → x ∈ s0.1 → x ∉ s.1).
Proof.
  intros [Hall Hnd].
  apply Forall_app in Hall as [Hall Hs].
  apply Forall_singleton in Hs as (Hne & Hb & Hty).
  rewrite fmap_app, concat_app in Hnd. simpl in Hnd. rewrite app_nil_r in Hnd.
  apply NoDup_app in Hnd as (Hnd1 & Hdisj & Hnd2).
  split_and!; try done.
  intros s0 x Hs0 Hx. by eapply Hdisj, elem_of_concat_fst.
Qed.

Lemma well_formed_NoDup L spans s :
  well_formed L spans → s ∈ spans → NoDup s.1.
Proof.
  intros [_ Hnd] Hs.
  apply list_elem_of_split in Hs as (l1 & l2 & ->).
  rewrite fmap_app, concat_app in Hnd. simpl in Hnd.
  apply NoDup_app in Hnd as (_ & _ & Hnd).
  by apply NoDup_app in Hnd as (? & _ & _).
Qed.

Lemma well_formed_elem L spans s :
  well_formed L spans → s ∈ spans →
  s.1 ≠ [] ∧ Forall (λ x, x < L) s.1 ∧ is_type s.2.
Proof. intros [Hall _] Hs. rewrite Forall_forall in Hall. by apply Hall. Qed.

(** Two spans of a well-formed set that share a token are the same span. *)
Lemma well_formed_disjoint L spans s1 s2 x :
  well_formed L spans → s1 ∈ spans → s2 ∈ spans →
  x ∈ s1.1 → x ∈ s2.1 → s1 = s2.
Proof.
  intros [_ Hnd]. revert Hnd.
  induction spans as [|s spans IH]; intros Hnd H1 H2 Hx1 Hx2; [by inversion H1|].
  simpl in Hnd. apply NoDup_app in Hnd as (_ & Hdisj & Hnd).
  assert (∀ s0, s0 ∈ spans → x ∈ s0.1 → x ∈ concat (spans.*1)) as Hin
    by eauto using elem_of_concat_fst.
  apply elem_of_cons in H1 as [->|H1], H2 as [->|H2]; [done|..].
  - exfalso. eapply Hdisj; eauto.
  - exfalso. eapply Hdisj; eauto.
  - by apply IH.
Qed.

Lemma well_formed_NoDup_spans L spans : well_formed L spans → NoDup spans.
Proof.
  intros [Hall Hnd].
  induction spans as [|s l IH]; [constructor|].
  simpl in Hnd. apply NoDup_app in Hnd as (_ & Hdisj & Hnd).
  inversion Hall as [|?? (Hne & _) Hall']; subst.
  constructor; [|by apply IH].
  intros Hin. destruct s as [[|x idx] ty]; [done|]. simpl in *.
  eapply (Hdisj x); [by left|].
  by eapply (elem_of_concat_fst _ (x :: idx, ty)); [|left].
Qed.

Lemma head_elem (idx : list nat) h : head idx = Some h → h ∈ idx.
Proof. rewrite head_lookup. apply list_elem_of_lookup_2. Qed.

Lemma last_elem (idx : list nat) t : last idx = Some t → t ∈ idx.
Proof. rewrite last_lookup. apply list_elem_of_lookup_2. Qed.

(** ** What the encoded grid holds *)

Lemma encodes_nil L : encodes L [] (empty_grid L).
Proof.
  split.
  - apply dims_empty.
  - intros a b. rewrite cell_empty. split; [done|]. intros (s & Hs & _). inversion Hs.
  - intros a b ty [Hty _]. rewrite cell_empty. split; [done|].
    intros (s & Hs & _). inversion Hs.
Qed.

Lemma encodes_snoc L spans s g :
  well_formed L (spans ++ [s]) →
  encodes L spans g → encodes L (spans ++ [s]) (encode_span g s).
Proof.
  intros Hwf [Hg Hcont Htype].
  destruct (well_formed_snoc _ _ _ Hwf) as (Hwf' & Hne & Hb & Hty & Hnd & Hdisj).
  destruct s as [idx ty]. simpl in *.
  destruct (head idx) as [h|] eqn:Hh; [|by destruct idx].
  destruct (last idx) as [t|] eqn:Ht; [|by apply last_None in Ht].
  pose proof (cell_encode_span_cases L g idx ty h t Hg Hb Hnd Hh Ht) as Hcases.
  split.
  - by eapply dims_encode_span.
  - intros a b. destruct (Hcases a b) as [(-> & -> & E)|[(Hadj & E)|(Hne' & Hnadj & E)]].
    + rewrite E. split; [intros ->; by destruct Hty|].
      intros (s0 & [Hs0| ->%list_elem_of_singleton]%elem_of_app & Hadj); exfalso.
      * eapply Hdisj; [done|by eapply adj_elem_l|by apply last_elem].
      * by eapply adj_last_no_succ.
    + rewrite E. split; [|done]. intros _. exists (idx, ty). set_solver.
    + rewrite E, Hcont. split.
      * intros (s0 & ? & ?). exists s0. set_solver.
      * intros (s0 & [Hs0| ->%list_elem_of_singleton]%elem_of_app & Hadj); [eauto|done].
  - intros a b ty' Hty'.
    destruct (Hcases a b) as [(-> & -> & E)|[(Hadj & E)|(Hne' & Hnadj & E)]].
    + rewrite E. split.
      * intros <-. exists (idx, ty). set_solver.
      * intros (s0 & [Hs0| ->%list_elem_of_singleton]%elem_of_app & Hs2 & Hh0 & Ht0);
          [|done].
        exfalso. eapply Hdisj; [done|by apply head_elem|by apply head_elem].
    + rewrite E. split; [intros <-; by destruct Hty'|].
      intros (s0 & [Hs0| ->%list_elem_of_singleton]%elem_of_app & Hs2 & Hh0 & Ht0);
        exfalso; simpl in *.
      * eapply Hdisj; [done|by apply last_elem|by eapply adj_elem_l].
      * eapply adj_last_no_succ; [exact Hnd|exact Ht0|exact Hadj].
    + rewrite E, (Htype _ _ _ Hty'). split.
      * intros (s0 & ? & ?). exists s0. set_solver.
      * intros (s0 & [Hs0| ->%list_elem_of_singleton]%elem_of_app & Hs2 & Hh0 & Ht0);
          [eauto|]. simpl in *. congruence.
Qed.

Lemma encodes_foldl L spans :
  well_formed L spans → encodes L spans (foldl encode_span (empty_grid L) spans).
Proof.
  induction spans as [|s spans IH] using rev_ind; intros Hwf.
  - apply encodes_nil.
  - rewrite foldl_snoc. apply encodes_snoc; [done|].
    apply IH. by eapply well_formed_snoc.
Qed.

(** ** Path enumeration *)

Lemma chain_cons g a b q :
  cell g a b = CONT → chain g (b :: q) → chain g (a :: b :: q).
Proof.
  intros Hab Hq x y [[-> [= ->]]|Hadj]%adj_cons_inv; [done | by apply Hq].
Qed.

Lemma chain_tail g a q : chain g (a :: q) → chain g q.
Proof. intros Hc x y Hadj. by apply Hc, adj_cons. Qed.

Lemma elem_of_successors g L i j :
  j ∈ successors g L i ↔ cell g i j = CONT ∧ j < L.
Proof.
  unfold successors. rewrite list_elem_of_filter, elem_of_seq.
  split; intros [? ?]; split; (done || lia).
Qed.

Lemma elem_of_walk_step fuel g L path cur p :
  p ∈ walk (S fuel) g L path cur ↔
  p = path ++ [cur]
  ∨ ∃ j, cell g cur j = CONT ∧ j < L ∧ (j ∉ path ++ [cur])
         ∧ p ∈ walk fuel g L (path ++ [cur]) j.
Proof.
  cbn [walk]. rewrite elem_of_cons, list_elem_of_bind.
  setoid_rewrite list_elem_of_filter. setoid_rewrite elem_of_successors.
  naive_solver.
Qed.

Lemma walk_sound fuel g L path cur p :
  p ∈ walk fuel g L path cur →
  ∃ q, p = path ++ cur :: q ∧ chain g (cur :: q).
Proof.
  revert path cur. induction fuel as [|fuel IH]; intros path cur Hp.
  - apply list_elem_of_singleton in Hp as ->. exists [].
    split; [done|]. intros a b ([|?[|??]] & ? & ?); simplify_eq.
  - apply elem_of_walk_step in Hp as [->|(j & Hc & _ & _ & Hp)].
    + exists []. split; [done|]. intros a b ([|?[|??]] & ? & ?); simplify_eq.
    + destruct (IH _ _ Hp) as (q & -> & Hq). exists (j :: q).
      split; [by rewrite <-app_assoc | by apply chain_cons].
Qed.

Lemma walk_complete g L q : ∀ (fuel : nat) (path : list nat) (cur : nat),
  chain g (cur :: q) → Forall (λ x, x < L) q → NoDup (path ++ cur :: q) →
  length q ≤ fuel →
  path ++ cur :: q ∈ walk fuel g L path cur.
Proof.
  induction q as [|j q IH]; intros fuel path cur Hc Hb Hnd Hlen.
  - destruct fuel; [apply list_elem_of_singleton|apply elem_of_walk_step]; auto.
  - destruct fuel as [|fuel]; [simpl in Hlen; lia|].
    apply elem_of_walk_step. right. exists j.
    inversion Hb as [|?? Hj Hb']; subst.
    split_and!; [apply Hc, adj_head | done | |].
    + replace (path ++ cur :: j :: q) with ((path ++ [cur]) ++ j :: q) in Hnd
        by by rewrite <-app_assoc.
      apply NoDup_app in Hnd as (_ & Hdisj & _).
      intros Hin. eapply Hdisj; [done|]. by left.
    + replace (path ++ cur :: j :: q) with ((path ++ [cur]) ++ j :: q)
        by by rewrite <-app_assoc.
      apply IH; [by eapply chain_tail | done | | simpl in Hlen; lia].
      by rewrite <-app_assoc.
Qed.

Lemma elem_of_paths g L p :
  p ∈ paths g L ↔ ∃ s, is_start g L s ∧ s < L ∧ p ∈ walk L g L [] s.
Proof.
  unfold paths. rewrite list_elem_of_bind.
  setoid_rewrite list_elem_of_filter. setoid_rewrite elem_of_seq.
  split; intros (s & ?); exists s; intuition lia.
Qed.

Lemma NoDup_bounded_length (l : list nat) L :
  NoDup l → Forall (λ x, x < L) l → length l ≤ L.
Proof.
  intros Hnd Hb.
  assert (l ⊆+ seq 0 L) as Hsub.
  { apply NoDup_submseteq; [done|]. intros x Hx. apply elem_of_seq.
    rewrite Forall_forall in Hb. specialize (Hb _ Hx). lia. }
  apply submseteq_length in Hsub. by rewrite length_seq in Hsub.
Qed.

(** ** Deduplication by token set *)

Lemma dedup_by_tokens_sub seen es e : e ∈ dedup_by_tokens seen es → e ∈ es.
Proof.
  revert seen. induction es as [|e0 es IH]; intros seen; simpl; [done|].
  case_decide; [|rewrite elem_of_cons]; set_solver.
Qed.

Lemma dedup_by_tokens_fresh seen es e :
  e ∈ dedup_by_tokens seen es → (list_to_set e.1 : gset nat) ∉ seen.
Proof.
  revert seen. induction es as [|e0 es IH]; intros seen; simpl; [by inversion 1|].
  case_decide as Hk; [by apply IH|].
  intros [->|Hin]%elem_of_cons; [done|].
  apply IH in Hin. set_solver.
Qed.

Lemma dedup_by_tokens_NoDup seen es : NoDup (dedup_by_tokens seen es).
Proof.
  revert seen. induction es as [|e0 es IH]; intros seen; simpl; [constructor|].
  case_decide; [done|]. constructor; [|done].
  intros Hin%dedup_by_tokens_fresh. set_solver.
Qed.

Lemma dedup_by_tokens_complete seen es e :
  e ∈ es → (list_to_set e.1 : gset nat) ∉ seen →
  (∀ e', e' ∈ es → (list_to_set e'.1 : gset nat) = list_to_set e.1 → e' = e) →
  e ∈ dedup_by_tokens seen es.
Proof.
  revert seen. induction es as [|e0 es IH]; intros seen Hin Hseen Huniq; simpl.
  { by inversion Hin. }
  case_decide as Hk.
  - apply elem_of_cons in Hin as [->|Hin]; [done|].
    apply IH; [done..|]. intros e' ?. apply Huniq. by right.
  - apply elem_of_cons in Hin as [->|Hin]; [by left|].
    destruct (decide ((list_to_set e0.1 : gset nat) = list_to_set e.1)) as [Heq|Hne].
    + rewrite (Huniq e0); [by left|by left|done].
    + right. apply IH; [done| |].
      * intros [?|?]%elem_of_cons; congruence.
      * intros e' ?. apply Huniq. by right.
Qed.

(** ** Decoding an encoded grid *)

Section RoundTrip.
Context (L : nat) (spans : list span) (g : grid).
Hypothesis Hwf : well_formed L spans.
Hypothesis Henc : encodes L spans g.

(** A continuation edge leaving a token of a span is an edge of that span. *)
Lemma cont_in_span sp a b :
  sp ∈ spans → a ∈ sp.1 → cell g a b = CONT → adj sp.1 a b.
Proof.
  intros Hsp Ha Hc. apply (enc_cont _ _ _ Henc) in Hc as (s0 & Hs0 & Hadj).
  assert (s0 = sp) as ->; [|done].
  eapply well_formed_disjoint; eauto using adj_elem_l.
Qed.

(** A chain that starts at the head of a span runs along the span. *)
Lemma chain_follows_span sp p h :
  sp ∈ spans → chain g p → head p = Some h → head sp.1 = Some h →
  ∀ k x, p !! k = Some x → sp.1 !! k = Some x.
Proof.
  intros Hsp Hc Hp Hh. rewrite head_lookup in Hp, Hh.
  induction k as [|k IH]; intros x Hx; [congruence|].
  destruct (lookup_lt_is_Some_2 p k) as [a Ha].
  { apply lookup_lt_Some in Hx. lia. }
  pose proof (IH _ Ha) as Ha'.
  assert (adj sp.1 a x) as (k' & Hk1 & Hk2)%adj_lookup.
  { apply cont_in_span; [done|by eapply list_elem_of_lookup_2|].
    apply Hc, adj_lookup. eauto. }
  assert (k' = k) as ->; [|done].
  eapply NoDup_lookup; eauto using well_formed_NoDup.
Qed.

Lemma chain_is_span sp p h t :
  sp ∈ spans → chain g p →
  head p = Some h → head sp.1 = Some h →
  last p = Some t → last sp.1 = Some t →
  p = sp.1.
Proof.
  intros Hsp Hc Hp Hh Hpt Ht.
  pose proof (chain_follows_span sp p h Hsp Hc Hp Hh) as Hpre.
  pose proof (well_formed_NoDup _ _ _ Hwf Hsp) as Hnd.
  rewrite last_lookup in Hpt, Ht.
  assert (pred (length p) = pred (length sp.1)) as Hlen
    by eauto using NoDup_lookup.
  assert (length p = length sp.1) as Hlen'.
  { apply lookup_lt_Some in Hpt, Ht. lia. }
  apply list_eq. intros k.
  destruct (p !! k) as [x|] eqn:Hk; [by rewrite (Hpre _ _ Hk)|].
  symmetry. apply lookup_ge_None. apply lookup_ge_None in Hk. lia.
Qed.

Lemma closure_type_Some p ty :
  closure_type g p = Some ty ↔
  ∃ h t, head p = Some h ∧ last p = Some t ∧ cell g t h = ty ∧ is_type ty.
Proof.
  unfold closure_type. destruct (head p) as [h|], (last p) as [t|];
    try (split; [done | by intros (? & ? & ? & ? & _)]).
  case_decide; split.
  - intros [= <-]. eauto 10.
  - by intros (? & ? & [= <-] & [= <-] & <- & _).
  - done.
  - intros (? & ? & [= <-] & [= <-] & <- & ?). done.
Qed.

(** Every path that closes is a span of the set. *)
Lemma candidate_sound p ty :
  p ∈ paths g L → closure_type g p = Some ty → (p, ty) ∈ spans.
Proof.
  intros (s & _ & _ & Hp)%elem_of_paths (h & t & Hh & Ht & Hc & Hty)%closure_type_Some.
  apply walk_sound in Hp as (q & -> & Hq). simpl in *.
  apply (enc_type _ _ _ Henc) in Hc as ([idx ty'] & Hsp & ? & Hh' & Ht'); [|done].
  simpl in *. subst ty'.
  by rewrite (chain_is_span (idx, ty) (s :: q) h t).
Qed.

Lemma span_is_path sp : sp ∈ spans → sp.1 ∈ paths g L.
Proof.
  intros Hsp.
  destruct (well_formed_elem _ _ _ Hwf Hsp) as (Hne & Hb & _).
  pose proof (well_formed_NoDup _ _ _ Hwf Hsp) as Hnd.
  destruct sp as [[|h q] ty]; [done|]. simpl in *.
  apply elem_of_paths. exists h. split_and!.
  - apply Forall_forall. intros a _ Hc.
    apply (cont_in_span (h :: q, ty)) in Hc; [|done|].
    + by eapply adj_head_no_pred in Hc.
    + apply (enc_cont _ _ _ Henc) in Hc as (s0 & Hs0 & Hadj).
      assert (s0 = (h :: q, ty)) as ->.
      { eapply well_formed_disjoint; eauto using adj_elem_r. simpl. by left. }
      by eapply adj_elem_l.
  - by inversion Hb.
  - apply (walk_complete g L q L [] h).
    + intros a b Hadj. apply (enc_cont _ _ _ Henc). by exists (h :: q, ty).
    + by inversion Hb.
    + done.
    + apply NoDup_cons in Hnd as [_ Hnd]. inversion Hb; subst.
      by apply NoDup_bounded_length.
Qed.

Lemma span_closure sp : sp ∈ spans → closure_type g sp.1 = Some sp.2.
Proof.
  intros Hsp.
  destruct (well_formed_elem _ _ _ Hwf Hsp) as (Hne & Hb & Hty).
  destruct (head sp.1) as [h|] eqn:Hh; [|by destruct sp as [[|??]?]].
  destruct (last sp.1) as [t|] eqn:Ht; [|by apply last_None in Ht].
  apply closure_type_Some. exists h, t. split_and!; [done..| |done].
  apply (enc_type _ _ _ Henc); [done|]. by exists sp.
Qed.

Lemma elem_of_candidates e :
  e ∈ omap (λ p, t ← closure_type g p; Some (p, t)) (paths g L) ↔ e ∈ spans.
Proof.
  rewrite list_elem_of_omap. split.
  - intros (p & Hp & He). destruct (closure_type g p) as [ty|] eqn:Hc; simplify_eq/=.
    by apply candidate_sound.
  - intros He. exists e.1. split; [by apply span_is_path|].
    rewrite (span_closure _ He). by destruct e.
Qed.

Lemma same_tokens_same_span (e e' : span) :
  e ∈ spans → e' ∈ spans →
  (list_to_set e'.1 : gset nat) = list_to_set e.1 → e' = e.
Proof.
  intros He He' Heq.
  destruct (well_formed_elem _ _ _ Hwf He) as (Hne & _ & _).
  destruct e as [[|x idx] ty]; [done|]. simpl in *.
  eapply (well_formed_disjoint _ _ _ _ x); eauto; simpl; [|by left].
  apply (elem_of_list_to_set (C:=gset nat)). rewrite Heq. set_solver.
Qed.

Lemma elem_of_decode e : e ∈ decode g L ↔ e ∈ spans.
Proof.
  unfold decode. split.
  - intros He%dedup_by_tokens_sub. by apply elem_of_candidates.
  - intros He. apply dedup_by_tokens_complete.
    + by apply elem_of_candidates.
    + by inversion 1.
    + intros e' He'%elem_of_candidates. by apply same_tokens_same_span.
Qed.

Lemma decode_permutation : decode g L ≡ₚ spans.
Proof.
  apply NoDup_Permutation.
  - apply dedup_by_tokens_NoDup.
  - by eapply well_formed_NoDup_spans.
  - apply elem_of_decode.
Qed.

End RoundTrip.

(** ** The round trip *)

(** C2.  For every sentence and every well-formed set of entity spans
    (no token index shared or repeated, every index inside the sentence,
    every type id a type label; spans may be discontinuous and may lie
    inside the gap of another span), decoding the grid that [encode]
    builds returns exactly those spans, each with its token indices and
    its type id, and each once. *)
Theorem decode_encode_roundtrip (sentence : list string) (spans : list span) :
  well_formed (length sentence) spans →
  decode (encode sentence spans) (length sentence) ≡ₚ spans.
Proof.
  intros Hwf. eapply decode_permutation; [done|].
  by apply encodes_foldl.
Qed.

Lemma decode_encode_roundtrip_witness :
  well_formed 5 [([1; 4], 2); ([2; 3], 3); ([0], 2)]
  ∧ decode (encode ["a"; "b"; "c"; "d"; "e"]%string
              [([1; 4], 2); ([2; 3], 3); ([0], 2)]) 5
    ≡ₚ [([1; 4], 2); ([2; 3], 3); ([0], 2)].
Proof.
  assert (well_formed 5 [([1; 4], 2); ([2; 3], 3); ([0], 2)]) as Hwf.
  { split.
    - repeat constructor; simpl; (lia || discriminate).
    - simpl. repeat constructor; set_solver. }
  split; [exact Hwf|].
  exact (decode_encode_roundtrip ["a"; "b"; "c"; "d"; "e"]%string _ Hwf).
Defined.

End GridCodecFacts.

(** * Properties of the driver *)

Module DriverFacts.

(** ** List comprehensions that may raise *)

Lemma mapM_res_Ok {A B} (f : A → res B) l bs :
  mapM_res f l = Ok bs ↔ Forall2 (λ a b, f a = Ok b) l bs.
Proof.
  revert bs. induction l as [|a l IH]; intros bs; simpl.
  - split; [intros [= <-]; constructor | by inversion 1].
  - destruct (f a) as [b|e] eqn:Hfa; simpl.
    + destruct (mapM_res f l) as [bs'|e] eqn:Hl; simpl.
      * split.
        -- intros [= <-]. constructor; [done | by apply IH].
        -- inversion 1 as [|???? Hb Hrest]; subst.
           apply IH in Hrest. congruence.
      * split; [done|]. inversion 1 as [|???? Hb Hrest]; subst.
        by apply IH in Hrest.
    + split; [done|]. inversion 1; congruence.
Qed.


Lemma masked_select_ext {A} (mask : list bool) (t t' : list A) :
  (∀ k, mask !! k = Some true → t !! k = t' !! k) →
  masked_select t mask = masked_select t' mask.
Proof.
  revert t t'. induction mask as [|m mask IH]; intros t t' Hagree.
  { by destruct t, t'. }
  destruct t as [|x t], t' as [|y t']; simpl.
  - done.
  - destruct m; [by specialize (Hagree 0 eq_refl)|].
    rewrite <-(IH [] t'); [by destruct mask|].
    intros k Hk. apply (Hagree (S k) Hk).
  - destruct m; [by specialize (Hagree 0 eq_refl)|].
    rewrite (IH t []); [by destruct mask|].
    intros k Hk. apply (Hagree (S k) Hk).
  - destruct m.
    + specialize (Hagree 0 eq_refl) as Hx. simplify_eq/=. f_equal.
      apply IH. intros k Hk. apply (Hagree (S k) Hk).
    + apply IH. intros k Hk. apply (Hagree (S k) Hk).
Qed.

Section Facts.
Context `{Backend} (ops : Ops) (config : Config).

(** ** The records of one batch *)

Lemma build_instance_sentence ent_list d inst :
  build_instance config ent_list d = Ok inst → sentence inst = d_sentence d.
Proof.
  unfold build_instance.
  destruct (mapM_res _ ent_list); simpl; [|done]. by intros [= <-].
Qed.

Lemma emit_records_app pairs1 pairs2 insts acc :
  Forall2 (λ pr inst, build_instance config pr.1 pr.2 = Ok inst) pairs1 insts →
  emit_records config (pairs1 ++ pairs2) acc
  = emit_records config pairs2 (acc ++ insts).
Proof.
  intros Hall. revert acc.
  induction Hall as [|[ent_list d] inst pairs1 insts Hb _ IH]; intros acc; simpl.
  - by rewrite app_nil_r.
  - simpl in Hb. rewrite Hb, IH. by rewrite <-app_assoc.
Qed.


(** ** The sentence offset *)

Lemma predict_try_i data w a b w' a' r :
  predict_try ops config data w a b = (w', a', r) →
  i a' = (if is_ok r then i a + batch_size config else i a).
Proof.
  unfold predict_try, invoke_model.
  destruct (model_call _ _ _) as [outputs|e]; [|by intros [= <- <- <-]].
  destruct (utils_decode _ _ _ _) as [[[[c p] r0] ents]|e]; [|by intros [= <- <- <-]].
  destruct (emit_records _ _ _) as [res' [[]|e]]; by intros [= <- <- <-].
Qed.

Lemma predict_step_i data w a b :
  i (predict_step ops config data w a b).2 = i a + batch_size config.
Proof.
  unfold predict_step.
  destruct (predict_try ops config data w a b) as [[w' a'] r] eqn:Htry.
  apply predict_try_i in Htry. destruct r; simpl in *; lia.
Qed.

Lemma predict_loop_app data pre post w a :
  predict_loop ops config data (pre ++ post) w a
  = predict_loop ops config data post
      (predict_loop ops config data pre w a).1
      (predict_loop ops config data pre w a).2.
Proof.
  revert w a. induction pre as [|b pre IH]; intros w a; simpl; [done|].
  destruct (predict_step ops config data w a b) as [w' a']. apply IH.
Qed.

Lemma predict_loop_i data data_loader w a :
  i (predict_loop ops config data data_loader w a).2
  = i a + length data_loader * batch_size config.
Proof.
  revert w a. induction data_loader as [|b bs IH]; intros w a; simpl; [lia|].
  pose proof (predict_step_i data w a b) as Hi.
  destruct (predict_step ops config data w a b) as [w' a'].
  rewrite IH. simpl in Hi. lia.
Qed.

(** C9.  In every iteration of the loop of [predict] the sentence offset
    grows by exactly [batch_size], on the success path and in the
    handler alike; so the loop reaches batch number k with offset
    k * batch_size, pairs it with data[k*batch_size : (k+1)*batch_size],
    and leaves it with offset (k+1) * batch_size, whatever happened to
    the batches before it. *)
Theorem predict_batch_alignment (data : list datum)
    (pre : list data_batch) (b : data_batch) (post : list data_batch) (w : world) :
  let k := length pre in
  let st := predict_loop ops config data pre w locals0 in
  let st' := predict_step ops config data st.1 st.2 b in
  predict_loop ops config data (pre ++ b :: post) w locals0
    = predict_loop ops config data post st'.1 st'.2
  ∧ i st.2 = k * batch_size config
  ∧ sentence_batch_at config data st.2
    = slice data (k * batch_size config) ((k + 1) * batch_size config)
  ∧ i st'.2 = i st.2 + batch_size config.
Proof.
  intros k st st'. split_and!.
  - rewrite predict_loop_app. fold st. simpl. subst st'.
    by destruct (predict_step ops config data st.1 st.2 b).
  - subst st. by rewrite predict_loop_i.
  - unfold sentence_batch_at. subst st. rewrite predict_loop_i. simpl.
    f_equal. lia.
  - apply predict_step_i.
Qed.

(** ** What a record holds *)



Lemma zip_prefix_snd {A B} (l : list A) (k : list B) p1 p2 :
  zip l k = p1 ++ p2 → p1.*2 = take (length p1) k.
Proof.
  revert l k. induction p1 as [|[a b] p1 IH]; intros l k Hz; [done|].
  destruct l as [|a' l], k as [|b' k]; simplify_eq/=.
  f_equal. by eapply IH.
Qed.


(** C10.  When model and decoder succeed on a batch of [predict] and the
    construction of a record then raises after the records of some
    sentences of the batch were appended, the handler appends one
    record without entities for every sentence of the batch; the
    sentences already processed therefore occur twice among the records
    the batch leaves behind. *)
Theorem predict_partial_failure_duplicates (data : list datum) (w : world)
    (a : locals) (b : data_batch) outputs c p r
    (decode_entities : list (list decoded_ent))
    done_pairs ent_bad d_bad rest insts e :
  model_call ops (model (trainer w)) b = Ok outputs →
  utils_decode ops (argmax ops <$> outputs) (entity_text b) (sent_length b)
    = Ok (c, p, r, decode_entities) →
  zip decode_entities (sentence_batch_at config data a)
    = done_pairs ++ (ent_bad, d_bad) :: rest →
  Forall2 (λ pr inst, build_instance config pr.1 pr.2 = Ok inst) done_pairs insts →
  build_instance config ent_bad d_bad = Raise e →
  let sb := sentence_batch_at config data a in
  let a' := (predict_step ops config data w a b).2 in
  result a' = result a ++ insts ++ empty_records sb
  ∧ sentence <$> insts = d_sentence <$> take (length done_pairs) sb
  ∧ sentence <$> empty_records sb = d_sentence <$> sb
  ∧ Forall (λ rec, entity rec = []) (empty_records sb)
  ∧ i a' = i a + batch_size config.
Proof.
  intros Hmodel Hdecode Hzip Hdone Hbad sb a'. subst sb. split_and!.
  - subst a'. unfold predict_step, predict_try, invoke_model.
    rewrite Hmodel, Hdecode, Hzip, (emit_records_app _ _ _ _ Hdone).
    simpl. rewrite Hbad. simpl. by rewrite <-app_assoc.
  - rewrite <-(zip_prefix_snd _ _ _ _ Hzip).
    clear -Hdone. induction Hdone as [|[ents d] inst ?? Hb _ IH]; [done|].
    rewrite !fmap_cons. simpl in Hb. apply build_instance_sentence in Hb.
    by f_equal.
  - unfold empty_records. rewrite <-list_fmap_compose. done.
  - unfold empty_records. apply Forall_fmap, Forall_true. done.
  - apply predict_step_i.
Qed.

(** ** Traces *)

Lemma emit_emit_all e (w : world) : emit e w = emit_all [e] w.
Proof. reflexivity. Qed.

Lemma emit_all_app evs1 evs2 (w : world) :
  emit_all evs2 (emit_all evs1 w) = emit_all (evs1 ++ evs2) w.
Proof. unfold emit_all. simpl. by rewrite app_assoc. Qed.

Lemma emit_all_nil (w : world) : emit_all [] w = w.
Proof. destruct w. unfold emit_all. simpl. by rewrite app_nil_r. Qed.


(** ** Trainer.train *)

(** C5.  In an iteration of [train] whose model invocation succeeds, the
    loss is the criterion applied to the cells of outputs and labels
    selected by the 2D mask, so it does not depend on any cell whose
    mask is false; the iteration then runs backward, clips the gradient
    to [config.clip_grad_norm], steps the optimizer on the clipped
    gradient and clears the gradients, in this order. *)
Theorem train_step_success (w : world) (a : locals) (b : data_batch) outputs :
  model_call ops (model (trainer w)) b = Ok outputs →
  let t := trainer w in
  let mask := grid_mask2d b in
  let l := criterion ops (masked_select outputs mask)
             (masked_select (grid_labels b) mask) in
  let g := clip_grad_norm_ ops (clip_grad_norm config) (backward ops l (grad t)) in
  let w' := (train_step ops config w a b).1.1 in
  let a' := (train_step ops config w a b).1.2 in
  (∃ rest, trace w' = trace w ++
      [EvModelCall b (grad_enabled w); EvBackward l;
       EvClip (clip_grad_norm config); EvOptStep; EvZeroGrad] ++ rest
     ∧ (rest = [] ∨ rest = [EvSchedStep]))
  ∧ model (trainer w') = (optimizer_step ops (optimizer t) (model t) g).1
  ∧ grad (trainer w') = zero_grad ops g
  ∧ loss_list a' = loss_list a ++ [l]
  ∧ (∀ outputs' labels',
       (∀ k, mask !! k = Some true →
             outputs' !! k = outputs !! k ∧ labels' !! k = grid_labels b !! k) →
       criterion ops (masked_select outputs' mask) (masked_select labels' mask) = l).
Proof.
  intros Hmodel t mask l g w' a'.
  subst w' a'. unfold train_step, invoke_model. rewrite Hmodel.
  unfold batch_loss. fold mask. fold l.
  unfold do_scheduler_step, do_zero_grad, do_step, do_clip, do_backward. simpl.
  fold t. fold g.
  destruct (optimizer_step ops (optimizer t) (model t) g) as [m o] eqn:Hstep.
  simpl. destruct (scheduler t) as [sc|] eqn:Hsc; simpl.
  - destruct (scheduler_step ops sc o) as [sc' o']. simpl.
    split_and!; try done.
    + exists [EvSchedStep]. split; [|by right].
      by rewrite <-!app_assoc.
    + intros outputs' labels' Hagree. subst l. f_equal.
      * apply masked_select_ext. intros k Hk. by apply Hagree.
      * apply masked_select_ext. intros k Hk. by apply Hagree.
  - split_and!; try done.
    + exists []. split; [|by left]. by rewrite <-!app_assoc.
    + intros outputs' labels' Hagree. subst l. f_equal.
      * apply masked_select_ext. intros k Hk. by apply Hagree.
      * apply masked_select_ext. intros k Hk. by apply Hagree.
Qed.

(** A batch on which the model raises is logged and skipped. *)
Lemma train_step_model_raises (w : world) (a : locals) (b : data_batch) e :
  model_call ops (model (trainer w)) b = Raise e →
  train_step ops config w a b
  = (emit_all [EvModelCall b (grad_enabled w); EvLog (LogExn e);
               EvLog (LogDataBatch b)] w, a, Ok ()).
Proof.
  intros Hmodel. unfold train_step, invoke_model. rewrite Hmodel.
  by rewrite !emit_emit_all, !emit_all_app.
Qed.

(** Without a [scheduler] attribute an iteration whose model invocation
    succeeds ends in [AttributeError]. *)
Lemma train_step_no_scheduler (w : world) (a : locals) (b : data_batch) outputs :
  scheduler (trainer w) = None →
  model_call ops (model (trainer w)) b = Ok outputs →
  (train_step ops config w a b).2 = Raise (AttributeError "scheduler").
Proof.
  intros Hsc Hmodel. unfold train_step, invoke_model. rewrite Hmodel.
  unfold do_scheduler_step, do_zero_grad, do_step, do_clip, do_backward. simpl.
  destruct (optimizer_step _ _ _ _). simpl. by rewrite Hsc.
Qed.

Lemma train_loop_no_scheduler data_loader (w w' : world) (a a' : locals) :
  scheduler (trainer w) = None →
  run_loop (train_step ops config) data_loader w a = (w', a', Ok ()) →
  a' = a.
Proof.
  revert w a. induction data_loader as [|b bs IH]; intros w a Hsc; simpl.
  { by intros [= <- <-]. }
  destruct (model_call ops (model (trainer w)) b) as [outputs|e] eqn:Hmodel.
  - pose proof (train_step_no_scheduler w a b outputs Hsc Hmodel) as Hr.
    destruct (train_step ops config w a b) as [[w1 a1] r]. simpl in Hr. by subst r.
  - rewrite (train_step_model_raises _ _ _ _ Hmodel). by apply IH.
Qed.

(** A trainer without [scheduler], as [Trainer.__init__] builds it, never
    finishes an epoch: either a batch succeeds and the scheduler step
    raises, or none does and the concatenation of nothing raises. *)
Lemma train_never_returns epoch data_loader (w : world) :
  scheduler (trainer w) = None →
  ∃ e, (train ops config epoch data_loader w).2 = Raise e.
Proof.
  intros Hsc. unfold train.
  destruct (run_loop _ _ _ _) as [[w' a'] [[]|e]] eqn:Hloop; [|by eauto].
  apply train_loop_no_scheduler in Hloop as ->; [|done].
  simpl. eauto.
Qed.

(** ** Trainer.eval *)

Lemma eval_step_Ok (w : world) (a : locals) (b : data_batch) c p r ents :
  forward_decode ops (model (trainer w)) b = Ok (c, p, r, ents) →
  ∃ a', eval_step ops w a b
        = (emit_all [EvModelCall b (grad_enabled w)] w, a', Ok ()).
Proof.
  unfold forward_decode, eval_step, invoke_model.
  destruct (model_call _ _ _) as [outputs|e]; simpl; [|done].
  intros ->. eauto.
Qed.

Lemma eval_step_Raise (w : world) (a : locals) (b : data_batch) e :
  forward_decode ops (model (trainer w)) b = Raise e →
  eval_step ops w a b = (emit_all [EvModelCall b (grad_enabled w)] w, a, Raise e).
Proof.
  unfold forward_decode, eval_step, invoke_model.
  destruct (model_call _ _ _) as [outputs|e']; simpl; [|by intros [= ->]].
  by intros ->.
Qed.

(** The loop of [eval] touches nothing but the trace, and only adds
    model invocations to it. *)
Lemma eval_loop_frame data_loader (w w' : world) (a a' : locals) r :
  run_loop (eval_step ops) data_loader w a = (w', a', r) →
  ∃ called, w' = emit_all ((λ b, EvModelCall b (grad_enabled w)) <$> called) w
    ∧ called `prefix_of` data_loader.
Proof.
  revert w a. induction data_loader as [|b bs IH]; intros w a; simpl.
  { intros [= <- <- <-]. exists []. split; [by rewrite emit_all_nil | done]. }
  destruct (forward_decode ops (model (trainer w)) b) as [[[[c p] r0] ents]|e] eqn:Hfd.
  - destruct (eval_step_Ok w a b _ _ _ _ Hfd) as (a1 & ->).
    intros (called & -> & Hpre)%IH. exists (b :: called).
    split; [by rewrite emit_all_app | by apply prefix_cons].
  - rewrite (eval_step_Raise w a b _ Hfd). intros [= <- <- <-].
    exists [b]. split; [done|]. apply prefix_cons, prefix_nil.
Qed.

Lemma summarise_frame title epoch (a : locals) (w w' : world) r :
  summarise ops title epoch a w = (w', r) →
  ∃ logs, w' = emit_all (EvLog <$> logs) w.
Proof.
  unfold summarise.
  destruct (torch_cat (label_result a));
    [|intros [= <- <-]; exists []; by rewrite emit_all_nil].
  destruct (torch_cat (pred_result a));
    [|intros [= <- <-]; exists []; by rewrite emit_all_nil].
  destruct (macro_prf _ _ _) as [[??]?], (cal_f1 _ _ _ _) as [[??]?].
  intros [= <- <-]. rewrite !emit_emit_all, emit_all_app. by eexists [_; _].
Qed.

(** C6.  A pass of [eval] leaves the model parameters, the optimizer
    state, the gradients and the scheduler as they were, for every batch
    sequence and whether or not the pass ends with an exception: the
    whole loop runs with gradient mode off (and the earlier mode is
    restored afterwards), every model invocation is made in that mode,
    and the pass performs no backward pass, no clipping, no optimizer or
    scheduler step and no file write. *)
Theorem eval_preserves_parameters (epoch : string) (data_loader : list data_batch)
    (is_test : bool) (w : world) :
  let w' := (eval ops epoch data_loader is_test w).1 in
  model (trainer w') = model (trainer w)
  ∧ optimizer (trainer w') = optimizer (trainer w)
  ∧ grad (trainer w') = grad (trainer w)
  ∧ scheduler (trainer w') = scheduler (trainer w)
  ∧ grad_enabled w' = grad_enabled w
  ∧ fs w' = fs w
  ∧ ∃ evs, trace w' = trace w ++ evs ∧ Forall inference_event evs.
Proof.
  intros w'. subst w'. unfold eval, with_no_grad.
  destruct (run_loop _ _ _ _) as [[w1 a1] r] eqn:Hloop.
  apply eval_loop_frame in Hloop as (called & -> & _).
  assert (Forall inference_event
            ((λ b, EvModelCall b false) <$> called : list event)) as Hcalls.
  { apply Forall_fmap, Forall_true. done. }
  destruct r as [[]|e]; simpl.
  - destruct (summarise _ _ _ _ _) as [w2 r2] eqn:Hsum.
    apply summarise_frame in Hsum as (logs & ->). simpl.
    split_and!; try done.
    exists (((λ b, EvModelCall b false) <$> called) ++ (EvLog <$> logs)).
    split; [by rewrite app_assoc|].
    apply Forall_app. split; [done|]. apply Forall_fmap, Forall_true. done.
  - split_and!; try done. eauto.
Qed.



(** ** Trainer.predict: the end of the pass *)

Lemma predict_step_frame data (w : world) (a : locals) (b : data_batch) :
  ∃ evs, (predict_step ops config data w a b).1 = emit_all evs w
    ∧ Forall (λ ev, is_file_event ev = false) evs.
Proof.
  unfold predict_step, predict_try, invoke_model.
  destruct (model_call _ _ _) as [outputs|e].
  - destruct (utils_decode _ _ _ _) as [[[[c p] r0] ents]|e].
    + destruct (emit_records _ _ _) as [res' [[]|e]]; simpl.
      * eexists [_]. split; [by rewrite emit_emit_all | by repeat constructor].
      * rewrite !emit_emit_all, !emit_all_app. eexists. split; [done|].
        by repeat constructor.
    + simpl. rewrite !emit_emit_all, !emit_all_app. eexists. split; [done|].
      by repeat constructor.
  - simpl. rewrite !emit_emit_all, !emit_all_app. eexists. split; [done|].
    by repeat constructor.
Qed.

Lemma predict_loop_frame data data_loader (w : world) (a : locals) :
  ∃ evs, (predict_loop ops config data data_loader w a).1 = emit_all evs w
    ∧ Forall (λ ev, is_file_event ev = false) evs.
Proof.
  revert w a. induction data_loader as [|b bs IH]; intros w a; simpl.
  { exists []. by rewrite emit_all_nil. }
  destruct (predict_step_frame data w a b) as (evs1 & Hw1 & Hevs1).
  destruct (predict_step ops config data w a b) as [w1 a1]. simpl in Hw1. subst w1.
  destruct (IH (emit_all evs1 w) a1) as (evs2 & -> & Hevs2).
  exists (evs1 ++ evs2). split; [by rewrite emit_all_app | by apply Forall_app].
Qed.

Lemma predict_step_results_length data (w : world) (a : locals) (b : data_batch) :
  length (label_result a) = length (pred_result a) →
  length (label_result (predict_step ops config data w a b).2)
  = length (pred_result (predict_step ops config data w a b).2).
Proof.
  intros Hlen. unfold predict_step, predict_try, invoke_model.
  destruct (model_call _ _ _) as [outputs|e]; [|done].
  destruct (utils_decode _ _ _ _) as [[[[c p] r0] ents]|e]; [|done].
  destruct (emit_records _ _ _) as [res' [[]|e]]; simpl; [|done].
  rewrite !length_app. simpl. lia.
Qed.

Lemma predict_loop_results_length data data_loader (w : world) (a : locals) :
  length (label_result a) = length (pred_result a) →
  length (label_result (predict_loop ops config data data_loader w a).2)
  = length (pred_result (predict_loop ops config data data_loader w a).2).
Proof.
  revert w a. induction data_loader as [|b bs IH]; intros w a Hlen; simpl; [done|].
  pose proof (predict_step_results_length data w a b Hlen) as Hlen'.
  destruct (predict_step ops config data w a b) as [w1 a1]. by apply IH.
Qed.

(** When at least one batch went through, [predict] returns and writes
    the output file exactly once, after the loop: the file then holds
    the dump of all accumulated records, whatever it held before. *)
Lemma predict_writes_once data epoch data_loader (w : world) :
  let st := predict_loop_end ops config data data_loader w in
  label_result st.2 ≠ [] →
  ∃ e_f1 w',
    predict ops config data epoch data_loader w = (w', Ok e_f1)
    ∧ fs w' = <[predict_path config := json_dump ops (result st.2)]> (fs w)
    ∧ filter (λ ev, is_file_event ev = true) (drop (length (trace w)) (trace w'))
      = [EvOpenWrite (predict_path config) "utf-8";
         EvDump (predict_path config) (json_dump ops (result st.2))].
Proof.
  intros st Hne. unfold predict, with_no_grad.
  unfold predict_loop_end in st.
  set (w1 := set_grad_enabled false
               (set_trainer (set_training false (trainer w)) w)) in *.
  pose proof (predict_loop_results_length data data_loader w1 locals0 eq_refl) as Hlen.
  destruct (predict_loop_frame data data_loader w1 locals0) as (evs & Hw & Hevs).
  change (predict_loop ops config data data_loader w1 locals0) with st in Hlen, Hw |- *.
  destruct st as [w2 a2]. simpl in *. subst w2.
  unfold summarise.
  destruct (label_result a2) as [|lr lrs]; [done|].
  destruct (pred_result a2) as [|pr prs]; [done|]. simpl.
  destruct (macro_prf ops _ _) as [[??]?], (cal_f1 ops _ _ _) as [[e_f1 ?]?].
  eexists _, _. split; [done|]. split; [done|].
  simpl. rewrite <-!app_assoc, drop_app_length, filter_app.
  replace (filter (λ ev, is_file_event ev = true) evs) with (@nil event); [done|].
  clear -Hevs. induction Hevs as [|ev evs Hev _ IH]; [done|].
  rewrite filter_cons_False; [done|]. by rewrite Hev.
Qed.

(** When no batch went through, the concatenation after the loop raises
    and [predict] ends before it opens the output file. *)
Lemma predict_aborts_unscored data epoch data_loader (w : world) :
  let st := predict_loop_end ops config data data_loader w in
  label_result st.2 = [] →
  ∃ msg w',
    predict ops config data epoch data_loader w = (w', Raise (RuntimeError msg))
    ∧ fs w' = fs w
    ∧ filter (λ ev, is_file_event ev = true) (drop (length (trace w)) (trace w')) = [].
Proof.
  intros st Hnil. unfold predict, with_no_grad.
  unfold predict_loop_end in st.
  set (w1 := set_grad_enabled false
               (set_trainer (set_training false (trainer w)) w)) in *.
  destruct (predict_loop_frame data data_loader w1 locals0) as (evs & Hw & Hevs).
  change (predict_loop ops config data data_loader w1 locals0) with st in Hw |- *.
  destruct st as [w2 a2]. simpl in *. subst w2.
  unfold summarise. rewrite Hnil. simpl.
  eexists _, _. split; [done|]. split; [done|].
  simpl. rewrite drop_app_length.
  clear -Hevs. induction Hevs as [|ev evs Hev _ IH]; [done|].
  rewrite filter_cons_False; [done|]. by rewrite Hev.
Qed.

End Facts.

End DriverFacts.

(** * The driver on the scripted backend *)

Module Runs.
Import Scripted DriverFacts.

(** C1.  Three sentences, batch size two.  On the first batch model and
    decoder succeed, the record of the first sentence is appended, then
    the entity decoded for the second sentence indexes past its end:
    the handler appends an empty record for both sentences of the
    batch.  The second batch goes through.  [predict] returns and
    writes four records for three sentences; the first sentence is
    there twice. *)
Theorem predict_record_count_diverges :
  let data := [d0; d1; d2] in
  let out := predict ops config data "Final" [b_partial; b_good] w0 in
  let records := predict_records ops config data [b_partial; b_good] w0 in
  out.2 = Ok 0
  ∧ fs out.1 !! "output.json" = Some (json_dump ops records)
  ∧ records =
      [ {| sentence := ["John"; "lives"];
           entity := [ {| text := ["John"]; type := "PER" |} ] |};
        {| sentence := ["John"; "lives"]; entity := [] |};
        {| sentence := ["Paris"]; entity := [] |};
        {| sentence := ["rain"];
           entity := [ {| text := ["rain"]; type := "PER" |} ] |} ]
  ∧ length records = 4
  ∧ length data = 3.
Proof. vm_compute. repeat split. Qed.

(** C8.  One sentence, one batch, and the model raises on it.  The
    handler records the sentence, the loop ends, and the concatenation of
    the empty [label_result] raises: [predict] ends with that exception
    and never opens the output file, which keeps its earlier text. *)
Theorem predict_all_batches_fail_no_output :
  let out := predict ops config [d0] "Final" [b_model_fails] w0 in
  out.2 = Raise (RuntimeError "torch.cat(): expected a non-empty list of Tensors")
  ∧ fs out.1 !! "output.json" = Some "stale"
  ∧ filter (λ ev, is_file_event ev = true) (trace out.1) = []
  ∧ predict_records ops config [d0] [b_model_fails] w0
    = [ {| sentence := ["John"; "lives"]; entity := [] |} ].
Proof. vm_compute. repeat split. Qed.

(** C3.  A trainer as [Trainer.__init__] builds it, and two batches: the
    model raises on the first and succeeds on the second.  The first
    batch is logged and skipped; the second is trained on, and reading
    [self.scheduler] at the end of its iteration raises.  With the
    failing batch alone, the concatenation after the loop raises.  The
    epoch does not complete in either run. *)
Theorem train_epoch_crashes_after_skipped_batch :
  let out := train ops config "0" [b_model_fails; b_good] w0 in
  out.2 = Raise (AttributeError "scheduler")
  ∧ trace out.1 =
      [ EvModelCall b_model_fails true;
        EvLog (LogExn (RuntimeError "CUDA out of memory"));
        EvLog (LogDataBatch b_model_fails);
        EvModelCall b_good true;
        EvBackward 2; EvClip 5; EvOptStep; EvZeroGrad ]
  ∧ (train ops config "0" [b_model_fails] w0).2
    = Raise (RuntimeError "torch.cat(): expected a non-empty list of Tensors").
Proof. vm_compute. repeat split. Qed.


(** ** The general statements at concrete inputs *)


Lemma train_step_success_witness :
  model_call ops (model (trainer w0)) b_good = Ok [2; 0; 0; 0]
  ∧ model (trainer (train_step ops config w0 locals0 b_good).1.1) = 12
  ∧ grad (trainer (train_step ops config w0 locals0 b_good).1.1) = 0
  ∧ loss_list (train_step ops config w0 locals0 b_good).1.2 = [2].
Proof.
  split; [reflexivity|].
  destruct (train_step_success ops config w0 locals0 b_good [2; 0; 0; 0] eq_refl)
    as (_ & Hmodel & Hgrad & Hloss & _).
  split; [exact Hmodel|]. split; [exact Hgrad | exact Hloss].
Defined.


Lemma predict_partial_failure_duplicates_witness :
  model_call ops (model (trainer w0)) b_partial = Ok [2; 0; 0; 0]
  ∧ build_instance config [([7], 2)] d1 = Raise IndexError
  ∧ sentence <$> result (predict_step ops config [d0; d1] w0 locals0 b_partial).2
    = [["John"; "lives"]; ["John"; "lives"]; ["Paris"]].
Proof.
  split; [reflexivity|]. split; [reflexivity|].
  destruct (predict_partial_failure_duplicates ops config [d0; d1] w0 locals0
              b_partial [2; 0; 0; 0] 0 2 0 [[([0], 2)]; [([7], 2)]]
              [([([0], 2)], d0)] [([7], 2)] d1 []
              [ {| sentence := ["John"; "lives"];
                   entity := [ {| text := ["John"]; type := "PER" |} ] |} ]
              IndexError eq_refl eq_refl eq_refl
              ltac:(repeat constructor) eq_refl)
    as (Hres & _).
  rewrite Hres. reflexivity.
Defined.

End Runs.

(** * Further properties of the passes *)

Module MoreFacts.
Import DriverFacts.

Lemma take_add_drop {A} (l : list A) (n m : nat) :
  take (n + m) l = take n l ++ take m (drop n l).
Proof.
  revert l. induction n as [|n IH]; intros l; simpl; [by rewrite drop_0|].
  destruct l as [|x l]; simpl; [by rewrite take_nil|]. by rewrite IH.
Qed.

Lemma slice_offset {A} (l : list A) (off n : nat) :
  slice l off (off + n) = take n (drop off l).
Proof. unfold slice. f_equal. lia. Qed.

Section Predict.
Context `{Backend} (ops : Ops) (config : Config) (data : list datum).

Abbreviation bs := (batch_size config).

(** ** One batch of predict *)

Lemma emit_records_all_ok pairs insts acc :
  mapM_res (λ pr, build_instance config pr.1 pr.2) pairs = Ok insts →
  emit_records config pairs acc = (acc ++ insts, Ok ()).
Proof.
  intros Hall%mapM_res_Ok.
  rewrite <-(app_nil_r pairs). by rewrite (emit_records_app _ _ _ _ _ Hall).
Qed.

Lemma emit_records_is_ok pairs acc :
  is_ok (emit_records config pairs acc).2
  = is_ok (mapM_res (λ pr, build_instance config pr.1 pr.2) pairs).
Proof.
  revert acc. induction pairs as [|[ents d] pairs IH]; intros acc; simpl; [done|].
  destruct (build_instance config ents d) as [inst|e]; simpl; [|done].
  rewrite IH. by destruct (mapM_res _ pairs).
Qed.

Lemma emit_records_extends pairs acc :
  ∃ insts, (emit_records config pairs acc).1 = acc ++ insts
    ∧ sentence <$> insts = d_sentence <$> take (length insts) (pairs.*2)
    ∧ length insts ≤ length pairs
    ∧ (is_ok (emit_records config pairs acc).2 = false → length insts < length pairs).
Proof.
  revert acc. induction pairs as [|[ents d] pairs IH]; intros acc; simpl.
  { exists []. by rewrite app_nil_r. }
  destruct (build_instance config ents d) as [inst|e] eqn:Hb; simpl.
  - destruct (IH (acc ++ [inst])) as (insts & Hres & Hs & Hlen & Hlt).
    exists (inst :: insts). rewrite Hres, <-app_assoc.
    apply build_instance_sentence in Hb.
    split_and!; [done| |simpl; lia|].
    + rewrite fmap_cons, Hb. simpl. f_equal. exact Hs.
    + intros Hf. specialize (Hlt Hf). simpl. lia.
  - exists []. rewrite app_nil_r. split_and!; [done..|simpl; lia|simpl; lia].
Qed.

(** What one iteration appends, case by case. *)
Lemma predict_step_result (w : world) (a : locals) (b : data_batch) :
  let sb := sentence_batch_at config data a in
  let a' := (predict_step ops config data w a b).2 in
  match forward_decode ops (model (trainer w)) b with
  | Raise _ => result a' = result a ++ empty_records sb
               ∧ label_result a' = label_result a
  | Ok (_, ents) =>
      match batch_records config ents sb with
      | Ok insts => result a' = result a ++ insts
                    ∧ label_result a' = label_result a ++ [masked_labels b]
      | Raise _ =>
          label_result a' = label_result a
          ∧ ∃ insts, result a' = result a ++ insts ++ empty_records sb
              ∧ sentence <$> insts = d_sentence <$> take (length insts) sb
              ∧ length insts < length sb
      end
  end.
Proof.
  intros sb a'. subst a'. unfold forward_decode, predict_step, predict_try, invoke_model.
  fold sb.
  destruct (model_call ops (model (trainer w)) b) as [outputs|e]; simpl; [|done].
  destruct (utils_decode _ _ _ _) as [[[[c p] r] ents]|e]; simpl; [|done].
  unfold batch_records.
  destruct (mapM_res _ (zip ents sb)) as [insts|e] eqn:Hm.
  - by rewrite (emit_records_all_ok _ _ _ Hm).
  - pose proof (emit_records_is_ok (zip ents sb) (result a)) as Hok.
    rewrite Hm in Hok. simpl in Hok.
    destruct (emit_records_extends (zip ents sb) (result a))
      as (insts & Hres & Hs & Hlen & Hlt).
    specialize (Hlt Hok).
    destruct (emit_records config (zip ents sb) (result a)) as [res' [[]|e']];
      [done|]. simpl in *. subst res'.
    split; [done|]. exists insts. rewrite <-app_assoc.
    assert (length (zip ents sb) ≤ length sb) as Hz by (rewrite length_zip; lia).
    split_and!; [done| |lia].
    rewrite Hs. f_equal.
    assert (take (length insts) (zip ents sb).*2 = take (length insts) sb) as ->;
      [|done].
    clear -Hlen. revert ents insts Hlen.
    induction sb as [|d sb IH]; intros [|e ents] insts Hlen; simpl in *;
      try (destruct insts; [done|simpl in *; lia]).
    destruct insts as [|inst insts]; [done|]. simpl in *. f_equal.
    apply IH. lia.
Qed.

Lemma predict_step_trainer (w : world) (a : locals) (b : data_batch) :
  trainer (predict_step ops config data w a b).1 = trainer w.
Proof. by destruct (predict_step_frame ops config data w a b) as (evs & -> & _). Qed.

Lemma zip_snd_take {A B} (l : list A) (k : list B) :
  (zip l k).*2 = take (length l) k.
Proof.
  revert k. induction l as [|a l IH]; intros [|b k]; simpl; [done..|].
  by rewrite IH.
Qed.

Lemma batch_records_Ok ents sb insts :
  batch_records config ents sb = Ok insts →
  sentence <$> insts = d_sentence <$> take (length ents) sb
  ∧ length insts = length (zip ents sb).
Proof.
  unfold batch_records. intros Hall%mapM_res_Ok.
  rewrite <-zip_snd_take. split; [|by apply Forall2_length in Hall].
  induction Hall as [|[e d] inst pairs insts Hb _ IH]; [done|].
  rewrite !fmap_cons. simpl in *. apply build_instance_sentence in Hb.
  f_equal; [done | exact IH].
Qed.

Lemma sentence_empty_records (sb : list datum) :
  sentence <$> empty_records sb = d_sentence <$> sb.
Proof. unfold empty_records. by rewrite <-list_fmap_compose. Qed.

Lemma sentence_batch_at_take (a : locals) :
  sentence_batch_at config data a = take bs (drop (i a) data).
Proof. unfold sentence_batch_at. apply slice_offset. Qed.

(** ** The whole loop *)

Lemma predict_loop_clean data_loader : ∀ (w : world) (a : locals),
  (∀ j b, data_loader !! j = Some b →
          clean_batch ops config (model (trainer w)) data (i a + j * bs) b) →
  sentence <$> result (predict_loop ops config data data_loader w a).2
  = (sentence <$> result a)
    ++ (d_sentence <$> take (length data_loader * bs) (drop (i a) data)).
Proof.
  induction data_loader as [|b rest IH]; intros w a Hclean; simpl.
  { by rewrite app_nil_r. }
  pose proof (predict_step_result w a b) as Hstep.
  pose proof (predict_step_i ops config data w a b) as Hi.
  pose proof (predict_step_trainer w a b) as Ht.
  pose proof (Hclean 0 b eq_refl) as Hb. unfold clean_batch in Hb.
  rewrite Nat.add_0_r, slice_offset, <-sentence_batch_at_take in Hb. simpl in Hstep.
  destruct (predict_step ops config data w a b) as [w1 a1]. simpl in *.
  rewrite IH.
  - rewrite Hi, take_add_drop, drop_drop, fmap_app, app_assoc. f_equal.
    rewrite <-sentence_batch_at_take.
    destruct (forward_decode ops (model (trainer w)) b) as [[[[c p] r] ents]|e].
    + destruct Hb as [Hlen Hok].
      destruct (batch_records config ents (sentence_batch_at config data a))
        as [insts|e] eqn:Hrec; [|done].
      destruct Hstep as [-> _]. rewrite fmap_app. f_equal.
      apply batch_records_Ok in Hrec as [-> _].
      by rewrite Hlen, firstn_all.
    + destruct Hstep as [-> _]. by rewrite fmap_app, sentence_empty_records.
  - intros j b' Hj. rewrite Ht, Hi.
    replace (i a + bs + j * bs) with (i a + S j * bs) by lia.
    by apply Hclean.
Qed.

(** X1.  When every exception of a pass of [predict] comes from the model
    or the decoder, the decoder otherwise returns one entity list per
    sentence of the batch, and the batches reach the end of the data,
    the pass accumulates exactly one record per input sentence, in the
    order of the input. *)
Theorem predict_exact_records (data_loader : list data_batch) (w : world) :
  (∀ k b, data_loader !! k = Some b →
          clean_batch ops config (model (trainer w)) data (k * bs) b) →
  length data ≤ length data_loader * bs →
  sentence <$> predict_records ops config data data_loader w = d_sentence <$> data.
Proof.
  intros Hclean Hcover. unfold predict_records, predict_loop_end.
  rewrite predict_loop_clean; [|done].
  simpl. by rewrite drop_0, take_ge.
Qed.



(** ** When predict returns *)

Lemma predict_loop_scored data_loader : ∀ (w : world) (a : locals),
  label_result (predict_loop ops config data data_loader w a).2 ≠ [] ↔
  label_result a ≠ []
  ∨ ∃ j b, data_loader !! j = Some b
      ∧ goes_through ops config (model (trainer w)) data (i a + j * bs) b = true.
Proof.
  induction data_loader as [|b rest IH]; intros w a; simpl.
  { split; [by left|]. intros [?|(j & b & Hj & _)]; [done|]. by destruct j. }
  pose proof (predict_step_result w a b) as Hstep.
  pose proof (predict_step_i ops config data w a b) as Hi.
  pose proof (predict_step_trainer w a b) as Ht.
  destruct (predict_step ops config data w a b) as [w1 a1]. simpl in *.
  rewrite IH, Ht, Hi.
  assert (label_result a1 ≠ [] ↔
          label_result a ≠ []
          ∨ goes_through ops config (model (trainer w)) data (i a + 0 * bs) b = true)
    as ->.
  { unfold goes_through. rewrite Nat.add_0_r, slice_offset, <-sentence_batch_at_take.
    destruct (forward_decode ops (model (trainer w)) b) as [[[[c p] r] ents]|e].
    - destruct (batch_records config ents (sentence_batch_at config data a))
        as [insts|e]; simpl.
      + destruct Hstep as [_ ->]. split; [by right|]. intros _.
        by destruct (label_result a).
      + destruct Hstep as [-> _]. naive_solver.
    - destruct Hstep as [_ ->]. naive_solver. }
  split.
  - intros [[?|Hb]|(j & b' & Hj & Hg)]; [by left| |].
    + right. by exists 0, b.
    + right. exists (S j), b'. split; [done|].
      by replace (i a + S j * bs) with (i a + bs + j * bs) by lia.
  - intros [?|(j & b' & Hj & Hg)]; [by left; left|].
    destruct j as [|j]; simpl in Hj.
    + injection Hj as <-. left. by right.
    + right. exists j, b'. split; [done|].
      by replace (i a + bs + j * bs) with (i a + S j * bs) by lia.
Qed.

(** X3.  A pass of [predict] returns normally exactly when the [try] body
    runs to its end on at least one batch.  It then leaves in the output
    file the dump of all accumulated records; otherwise it raises and
    leaves every file as it was. *)
Theorem predict_returns_iff (epoch : string) (data_loader : list data_batch)
    (w : world) :
  let out := predict ops config data epoch data_loader w in
  (is_ok out.2 = true ↔
     ∃ k b, data_loader !! k = Some b
       ∧ goes_through ops config (model (trainer w)) data (k * bs) b = true)
  ∧ (is_ok out.2 = true →
       fs out.1 = <[predict_path config :=
                      json_dump ops (predict_records ops config data data_loader w)]>
                    (fs w))
  ∧ (is_ok out.2 = false → fs out.1 = fs w).
Proof.
  intros out.
  pose proof (predict_loop_scored data_loader
                (set_grad_enabled false
                   (set_trainer (set_training false (trainer w)) w)) locals0) as Hsc.
  simpl in Hsc.
  destruct (decide (label_result (predict_loop_end ops config data data_loader w).2
                    = [])) as [Hnil|Hne].
  - destruct (predict_aborts_unscored ops config data epoch data_loader w Hnil)
      as (msg & w' & Hout & Hfs & _).
    subst out. rewrite Hout. simpl. split_and!; [|done..].
    split; [done|]. intros Hex. exfalso.
    assert (label_result (predict_loop_end ops config data data_loader w).2 ≠ [])
      as Hne; [|done].
    apply Hsc. by right.
  - destruct (predict_writes_once ops config data epoch data_loader w Hne)
      as (e_f1 & w' & Hout & Hfs & _).
    subst out. rewrite Hout. simpl. split_and!; [|done..].
    split; [|done]. intros _. apply Hsc in Hne as [?|?]; done.
Qed.

(** ** What predict leaves alone *)

Lemma predict_step_events (w : world) (a : locals) (b : data_batch) :
  ∃ evs, (predict_step ops config data w a b).1 = emit_all evs w
    ∧ Forall (log_or_call (grad_enabled w)) evs.
Proof.
  unfold predict_step, predict_try, invoke_model.
  destruct (model_call _ _ _) as [outputs|e].
  - destruct (utils_decode _ _ _ _) as [[[[c p] r0] ents]|e].
    + destruct (emit_records _ _ _) as [res' [[]|e]]; simpl.
      * eexists [_]. split; [by rewrite emit_emit_all | by repeat constructor].
      * rewrite !emit_emit_all, !emit_all_app. eexists. split; [done|].
        by repeat constructor.
    + simpl. rewrite !emit_emit_all, !emit_all_app. eexists. split; [done|].
      by repeat constructor.
  - simpl. rewrite !emit_emit_all, !emit_all_app. eexists. split; [done|].
    by repeat constructor.
Qed.

Lemma predict_loop_events data_loader : ∀ (w : world) (a : locals),
  ∃ evs, (predict_loop ops config data data_loader w a).1 = emit_all evs w
    ∧ Forall (log_or_call (grad_enabled w)) evs.
Proof.
  induction data_loader as [|b rest IH]; intros w a; simpl.
  { exists []. by rewrite emit_all_nil. }
  destruct (predict_step_events w a b) as (evs1 & Hw1 & Hevs1).
  destruct (predict_step ops config data w a b) as [w1 a1]. simpl in Hw1. subst w1.
  destruct (IH (emit_all evs1 w) a1) as (evs2 & -> & Hevs2).
  exists (evs1 ++ evs2). split; [by rewrite emit_all_app | by apply Forall_app].
Qed.

(** X4.  A pass of [predict] leaves the model parameters, the optimizer
    state, the gradients and the scheduler as they were and restores the
    gradient mode, whether it returns or raises; it invokes the model
    only with gradient mode off, and the only file it can change is the
    one at [config.predict_path]. *)
Theorem predict_frame (epoch : string) (data_loader : list data_batch) (w : world) :
  let w' := (predict ops config data epoch data_loader w).1 in
  model (trainer w') = model (trainer w)
  ∧ optimizer (trainer w') = optimizer (trainer w)
  ∧ grad (trainer w') = grad (trainer w)
  ∧ scheduler (trainer w') = scheduler (trainer w)
  ∧ grad_enabled w' = grad_enabled w
  ∧ (∀ path, path ≠ predict_path config → fs w' !! path = fs w !! path)
  ∧ ∃ evs, trace w' = trace w ++ evs
      ∧ Forall (λ ev, inference_event ev ∨ is_file_event ev = true) evs.
Proof.
  intros w'. subst w'. unfold predict, with_no_grad.
  set (w1 := set_grad_enabled false
               (set_trainer (set_training false (trainer w)) w)).
  destruct (predict_loop_events data_loader w1 locals0) as (evs & Hw & Hevs).
  destruct (predict_loop ops config data data_loader w1 locals0) as [w2 a2].
  simpl in Hw. subst w2.
  assert (Forall (λ ev, inference_event ev ∨ is_file_event ev = true) evs) as Hevs'.
  { eapply Forall_impl; [exact Hevs|]. intros [] ?; simpl in *; auto. }
  destruct (summarise ops "TEST" epoch a2 _) as [w3 r3] eqn:Hsum.
  apply summarise_frame in Hsum as (logs & ->).
  assert (Forall (λ ev, inference_event ev ∨ is_file_event ev = true)
            (EvLog <$> logs : list event)) as Hlogs.
  { apply Forall_fmap, Forall_true. intros l. by left. }
  destruct r3 as [e_f1|e]; simpl.
  - split_and!; try done.
    + intros path Hne. by rewrite lookup_insert_ne.
    + eexists. rewrite <-!app_assoc. split; [done|].
      apply Forall_app. split; [done|]. apply Forall_app. split; [done|].
      repeat constructor; by right.
  - split_and!; try done.
    exists (evs ++ (EvLog <$> logs)). rewrite app_assoc. split; [done|].
    by apply Forall_app.
Qed.

End Predict.

Section PredictTrace.
Context `{Backend} (ops : Ops) (config : Config) (data : list datum).

Abbreviation bs := (batch_size config).

Lemma emit_records_exn pairs acc :
  (emit_records config pairs acc).2
  = match mapM_res (λ pr, build_instance config pr.1 pr.2) pairs with
    | Ok _ => Ok ()
    | Raise e => Raise e
    end.
Proof.
  revert acc. induction pairs as [|[ents d] pairs IH]; intros acc; simpl; [done|].
  destruct (build_instance config ents d) as [inst|e]; simpl; [|done].
  rewrite IH. by destruct (mapM_res _ pairs).
Qed.

(** The world and the counts one iteration leaves. *)
Lemma predict_step_block (w : world) (a : locals) (b : data_batch) :
  grad_enabled w = false →
  let m := model (trainer w) in
  let a' := (predict_step ops config data w a b).2 in
  (predict_step ops config data w a b).1
  = emit_all (predict_block ops config m data (i a) b) w
  ∧ (total_ent_c a', total_ent_p a', total_ent_r a')
    = match batch_failure ops config m data (i a) b, forward_decode ops m b with
      | None, Ok (c, p, r, _) =>
          (total_ent_c a + c, total_ent_p a + p, total_ent_r a + r)
      | _, _ => (total_ent_c a, total_ent_p a, total_ent_r a)
      end.
Proof.
  intros Hg m a'. subst a' m.
  unfold predict_block, batch_failure, forward_decode, batch_records.
  unfold predict_step, predict_try, invoke_model, sentence_batch_at. rewrite Hg.
  destruct (model_call ops (model (trainer w)) b) as [outputs|e]; simpl.
  - destruct (utils_decode ops _ _ _) as [[[[c p] r] ents]|e]; simpl.
    + pose proof (emit_records_exn
                    (zip ents (slice data (i a) (i a + bs))) (result a)) as Hexn.
      destruct (emit_records config _ (result a)) as [res' r']. simpl in Hexn.
      subst r'.
      destruct (mapM_res _ (zip ents (slice data (i a) (i a + bs)))) as [insts|e];
        simpl.
      * by rewrite emit_emit_all.
      * by rewrite !emit_emit_all, !emit_all_app.
    + by rewrite !emit_emit_all, !emit_all_app.
  - by rewrite !emit_emit_all, !emit_all_app.
Qed.

Lemma predict_loop_blocks data_loader : ∀ (w : world) (a : locals),
  grad_enabled w = false →
  let m := model (trainer w) in
  let st := predict_loop ops config data data_loader w a in
  st.1 = emit_all (concat (imap (λ k b, predict_block ops config m data
                                          (i a + k * bs) b) data_loader)) w
  ∧ (total_ent_c st.2, total_ent_p st.2, total_ent_r st.2)
    = predict_counts ops config m data (i a) data_loader
        (total_ent_c a, total_ent_p a, total_ent_r a).
Proof.
  induction data_loader as [|b rest IH]; intros w a Hg; simpl.
  { by rewrite emit_all_nil. }
  destruct (predict_step_block w a b Hg) as [Hw Hc].
  pose proof (predict_step_i ops config data w a b) as Hi.
  destruct (predict_step ops config data w a b) as [w1 a1]. simpl in *. subst w1.
  destruct (IH (emit_all (predict_block ops config (model (trainer w)) data (i a) b) w)
              a1 Hg) as [Hw' Hc'].
  simpl in *. rewrite Hi in Hw', Hc'. split.
  - rewrite Hw', emit_all_app, Nat.add_0_r. f_equal. f_equal. f_equal.
    apply imap_ext. intros k b' _. simpl. f_equal. lia.
  - rewrite Hc', Hc. f_equal.
Qed.

(** X14.  The events of a pass of [predict], batch by batch: a batch that
    goes through leaves its model invocation and no log line; a batch
    that fails leaves its model invocation followed by three log lines,
    the exception, the sentences of the batch and the batch itself.
    After the batches come only the two score lines and the write of
    the output file, and only when the pass returns. *)
Theorem predict_trace (epoch : string) (data_loader : list data_batch) (w : world) :
  let m := model (trainer w) in
  let out := predict ops config data epoch data_loader w in
  ∃ rest,
    trace out.1 = trace w
      ++ concat (imap (λ k b, predict_block ops config m data (k * bs) b) data_loader)
      ++ rest
    ∧ (rest = []
       ∨ ∃ f1s f1 p r e_f1 e_p e_r,
           is_ok out.2 = true
           ∧ rest = [EvLog (LogLabelF1 "TEST" f1s);
                     EvLog (LogEvalTable "TEST" epoch f1 p r e_f1 e_p e_r);
                     EvOpenWrite (predict_path config) "utf-8";
                     EvDump (predict_path config)
                       (json_dump ops
                          (predict_records ops config data data_loader w))]).
Proof.
  intros m out. subst out. unfold predict, with_no_grad, predict_records, predict_loop_end.
  set (w1 := set_grad_enabled false
               (set_trainer (set_training false (trainer w)) w)).
  destruct (predict_loop_blocks data_loader w1 locals0 eq_refl) as [Hw _].
  simpl in Hw.
  destruct (predict_loop ops config data data_loader w1 locals0) as [w2 a2].
  simpl in *. subst w2. unfold summarise.
  destruct (torch_cat (label_result a2)); simpl.
  - destruct (torch_cat (pred_result a2)); simpl.
    + destruct (macro_prf ops _ _) as [[p r] f1].
      destruct (cal_f1 ops _ _ _) as [[e_f1 e_p] e_r]. simpl.
      eexists. rewrite <-!app_assoc. split; [done|]. right. eauto 10.
    + exists []. rewrite app_nil_r. split; [done | by left].
  - exists []. rewrite app_nil_r. split; [done | by left].
Qed.


End PredictTrace.

Section TrainEval.
Context `{Backend} (ops : Ops) (config : Config).

(** ** Trainer.train *)



Lemma train_step_block (w : world) (a : locals) (b : data_batch) :
  ∃ blk, trace (train_step ops config w a b).1.1 = trace w ++ blk
    ∧ train_block (clip_grad_norm config) blk.
Proof.
  unfold train_step, invoke_model.
  destruct (model_call ops (model (trainer w)) b) as [outputs|e]; simpl.
  - unfold do_scheduler_step, do_zero_grad, do_step, do_clip, do_backward. simpl.
    destruct (optimizer_step ops _ _ _) as [m o]. simpl.
    destruct (scheduler (trainer w)) as [sc|]; simpl.
    + destruct (scheduler_step ops sc o) as [sc' o']. simpl.
      eexists. rewrite <-!app_assoc. split; [done|].
      right. eexists _, _, _. by right.
    + eexists. rewrite <-!app_assoc. split; [done|].
      right. eexists _, _, _. by left.
  - eexists. rewrite <-!app_assoc. split; [done|]. left. by eexists _, _, _.
Qed.

Lemma train_loop_blocks data_loader : ∀ (w : world) (a : locals),
  ∃ blocks, trace (run_loop (train_step ops config) data_loader w a).1.1
            = trace w ++ concat blocks
    ∧ Forall (train_block (clip_grad_norm config)) blocks
    ∧ length blocks ≤ length data_loader.
Proof.
  induction data_loader as [|b rest IH]; intros w a; simpl.
  { exists []. by rewrite app_nil_r. }
  destruct (train_step_block w a b) as (blk & Htr & Hblk).
  destruct (train_step ops config w a b) as [[w1 a1] [[]|e]]; simpl in *.
  - destruct (IH w1 a1) as (blocks & -> & Hall & Hlen).
    exists (blk :: blocks). rewrite Htr, <-app_assoc.
    split_and!; [done|by constructor|simpl; lia].
  - exists [blk]. simpl. rewrite app_nil_r.
    split_and!; [done|by apply Forall_singleton|lia].
Qed.

(** X6.  The events of a pass of [train] are a sequence of blocks, at most
    one per batch: a skipped batch leaves a model invocation and two log
    lines and nothing else; a trained batch leaves a model invocation,
    one backward pass, one clipping with [config.clip_grad_norm], one
    optimizer step and one clearing of the gradients, in this order, and
    then possibly a scheduler step.  The table is logged last, and only
    when the pass returns. *)
Theorem train_trace_blocks (epoch : string) (data_loader : list data_batch)
    (w : world) :
  let out := train ops config epoch data_loader w in
  ∃ blocks rest,
    trace out.1 = trace w ++ concat blocks ++ rest
    ∧ Forall (train_block (clip_grad_norm config)) blocks
    ∧ length blocks ≤ length data_loader
    ∧ (rest = [] ∨ (is_ok out.2 = true
                    ∧ ∃ mean f1 p r, rest = [EvLog (LogTrainTable epoch mean f1 p r)])).
Proof.
  intros out. subst out. unfold train.
  destruct (train_loop_blocks data_loader
              (set_trainer (set_training true (trainer w)) w) locals0)
    as (blocks & Htr & Hall & Hlen).
  destruct (run_loop _ _ _ _) as [[w' a'] r]. simpl in Htr.
  exists blocks.
  destruct r as [[]|e]; simpl.
  - destruct (torch_cat (label_result a')); simpl.
    + destruct (torch_cat (pred_result a')); simpl.
      * destruct (macro_prf ops _ _) as [[p r] f1]. simpl.
        eexists. rewrite Htr, <-app_assoc. split_and!; [done..|].
        right. eauto 10.
      * exists []. rewrite app_nil_r. by split_and!; [..|left].
    + exists []. rewrite app_nil_r. by split_and!; [..|left].
  - exists []. rewrite app_nil_r. by split_and!; [..|left].
Qed.

(** ** Trainer.eval *)

Lemma eval_loop_all_ok data_loader : ∀ (w : world) (a : locals),
  Forall (λ b, is_ok (forward_decode ops (model (trainer w)) b) = true) data_loader →
  ∃ a', run_loop (eval_step ops) data_loader w a
        = (emit_all ((λ b, EvModelCall b (grad_enabled w)) <$> data_loader) w,
           a', Ok ())
    ∧ label_result a' = label_result a ++ (masked_labels <$> data_loader)
    ∧ pred_result a'
      = pred_result a ++ (masked_preds ops (model (trainer w)) <$> data_loader)
    ∧ (total_ent_c a', total_ent_p a', total_ent_r a')
      = sum_counts ops (model (trainer w)) data_loader
          (total_ent_c a, total_ent_p a, total_ent_r a).
Proof.
  induction data_loader as [|b rest IH]; intros w a Hall.
  { exists a. simpl. by rewrite emit_all_nil, !app_nil_r. }
  inversion Hall as [|?? Hb Hrest]; subst.
  destruct (forward_decode ops (model (trainer w)) b) as [[[[c p] r] ents]|e] eqn:Hfd;
    [|done].
  assert (eval_step ops w a b
          = (emit (EvModelCall b (grad_enabled w)) w,
             accumulate c p r (masked_labels b)
               (masked_preds ops (model (trainer w)) b) a, Ok ())) as Hstep.
  { unfold eval_step, invoke_model, forward_decode, masked_preds, masked_labels in *.
    destruct (model_call ops (model (trainer w)) b) as [outputs|e]; simpl in *;
      [|done].
    by rewrite Hfd. }
  cbn [run_loop sum_counts]. rewrite Hstep, Hfd.
  destruct (IH (emit (EvModelCall b (grad_enabled w)) w)
              (accumulate c p r (masked_labels b)
                 (masked_preds ops (model (trainer w)) b) a) Hrest)
    as (a' & Hloop & Hl & Hp & Hc).
  exists a'. rewrite Hloop, Hl, Hp, Hc. simpl.
  rewrite emit_emit_all, emit_all_app, <-!app_assoc. done.
Qed.

Lemma eval_loop_is_ok data_loader : ∀ (w : world) (a : locals),
  is_ok (run_loop (eval_step ops) data_loader w a).2
  = forallb (λ b, is_ok (forward_decode ops (model (trainer w)) b)) data_loader.
Proof.
  induction data_loader as [|b rest IH]; intros w a; simpl; [done|].
  destruct (forward_decode ops (model (trainer w)) b) as [[[[c p] r] ents]|e] eqn:Hfd.
  - destruct (eval_step_Ok ops w a b _ _ _ _ Hfd) as (a1 & ->). by rewrite IH.
  - by rewrite (eval_step_Raise ops w a b e Hfd).
Qed.

Lemma eval_all_ok (epoch : string) (data_loader : list data_batch)
    (is_test : bool) (w : world) :
  data_loader ≠ [] →
  Forall (λ b, is_ok (forward_decode ops (model (trainer w)) b) = true) data_loader →
  let m := model (trainer w) in
  let counts := sum_counts ops m data_loader (0, 0, 0) in
  let labels := concat (masked_labels <$> data_loader) in
  let preds := concat (masked_preds ops m <$> data_loader) in
  let title := (if is_test then "TEST" else "EVAL")%string in
  let e := cal_f1 ops counts.1.1 counts.1.2 counts.2 in
  let l := macro_prf ops labels preds in
  let out := eval ops epoch data_loader is_test w in
  out.2 = Ok e.1.1
  ∧ trace out.1 = trace w
      ++ ((λ b, EvModelCall b false) <$> data_loader)
      ++ [EvLog (LogLabelF1 title (per_label_f1 ops labels preds));
          EvLog (LogEvalTable title epoch l.2 l.1.1 l.1.2 e.1.1 e.1.2 e.2)].
Proof.
  intros Hne Hall m counts labels preds title e l out.
  subst out. unfold eval, with_no_grad.
  destruct (eval_loop_all_ok data_loader
              (set_grad_enabled false
                 (set_trainer (set_training false (trainer w)) w)) locals0 Hall)
    as (a' & Hloop & Hl & Hp & Hc).
  rewrite Hloop. simpl in *. unfold summarise. rewrite Hl, Hp.
  destruct data_loader as [|b rest]; [done|]. rewrite !fmap_cons.
  cbn [torch_cat]. fold m. rewrite <-!fmap_cons. fold labels. fold preds.
  replace (total_ent_c a') with counts.1.1 by (unfold counts, m; by rewrite <-Hc).
  replace (total_ent_p a') with counts.1.2 by (unfold counts, m; by rewrite <-Hc).
  replace (total_ent_r a') with counts.2 by (unfold counts, m; by rewrite <-Hc).
  subst e l.
  destruct (macro_prf ops labels preds) as [[p r] f1].
  destruct (cal_f1 ops counts.1.1 counts.1.2 counts.2) as [[e_f1 e_p] e_r].
  simpl. split; [done|]. by rewrite <-!app_assoc.
Qed.

(** X7.  When model and decoder succeed on every batch of a non-empty
    batch sequence, [eval] returns the entity F1 that [utils.cal_f1]
    computes from the counts summed over all batches, and logs the label
    scores computed from the masked gold cells and the masked predicted
    cells of all batches, concatenated in batch order. *)
Theorem eval_reports_summed_counts (epoch : string) (data_loader : list data_batch)
    (is_test : bool) (w : world) :
  data_loader ≠ [] →
  Forall (λ b, is_ok (forward_decode ops (model (trainer w)) b) = true) data_loader →
  let m := model (trainer w) in
  let counts := sum_counts ops m data_loader (0, 0, 0) in
  let labels := concat (masked_labels <$> data_loader) in
  let preds := concat (masked_preds ops m <$> data_loader) in
  let title := (if is_test then "TEST" else "EVAL")%string in
  let e := cal_f1 ops counts.1.1 counts.1.2 counts.2 in
  let l := macro_prf ops labels preds in
  let out := eval ops epoch data_loader is_test w in
  out.2 = Ok e.1.1
  ∧ trace out.1 = trace w
      ++ ((λ b, EvModelCall b false) <$> data_loader)
      ++ [EvLog (LogLabelF1 title (per_label_f1 ops labels preds));
          EvLog (LogEvalTable title epoch l.2 l.1.1 l.1.2 e.1.1 e.1.2 e.2)].
Proof. apply eval_all_ok. Qed.

(** X8.  [eval] returns normally exactly when the batch sequence is not
    empty and model and decoder succeed on every batch; in particular it
    raises on an empty sequence. *)
Theorem eval_returns_iff (epoch : string) (data_loader : list data_batch)
    (is_test : bool) (w : world) :
  is_ok (eval ops epoch data_loader is_test w).2 = true ↔
  data_loader ≠ []
  ∧ Forall (λ b, is_ok (forward_decode ops (model (trainer w)) b) = true) data_loader.
Proof.
  split.
  - intros Hok. split.
    { intros ->. unfold eval, with_no_grad in Hok. simpl in Hok. done. }
    unfold eval, with_no_grad in Hok.
    set (w1 := set_grad_enabled false
                 (set_trainer (set_training false (trainer w)) w)) in *.
    pose proof (eval_loop_is_ok data_loader w1 locals0) as Hloop.
    destruct (run_loop (eval_step ops) data_loader w1 locals0) as [[w2 a2] r].
    destruct r as [[]|e]; [|done]. simpl in Hloop.
    symmetry in Hloop. rewrite forallb_forall in Hloop.
    apply Forall_forall. intros b Hb. apply Hloop. by apply list_elem_of_In.
  - intros [Hne Hall].
    destruct (eval_all_ok epoch data_loader is_test w Hne Hall) as [Hout _].
    by rewrite Hout.
Qed.

End TrainEval.

(** ** Trainer.__init__: the parameter groups *)

Lemma prefix_spec (nd n : string) :
  String.prefix nd n = true ↔ ∃ post, n = nd +:+ post.
Proof.
  revert n. induction nd as [|a nd IH]; intros [|b n]; simpl.
  - split; [intros _; by exists ""%string | done].
  - split; [intros _; by exists (String b n) | done].
  - split; [done|]. by intros (? & ?).
  - destruct (Ascii.ascii_dec a b) as [->|Hne].
    + rewrite IH. split; intros (post & Hp); exists post.
      * by rewrite Hp.
      * by inversion Hp.
    + split; [done|]. intros (? & Hp). inversion Hp. congruence.
Qed.

(** [contains] is Python's substring test. *)
Lemma contains_spec (n nd : string) :
  contains n nd = true ↔ ∃ pre post, n = pre +:+ nd +:+ post.
Proof.
  induction n as [|a n IH]; cbn [contains].
  - rewrite orb_false_r, prefix_spec. split.
    + intros (post & ->). by exists ""%string, post.
    + intros ([|??] & post & Hp); [eauto|by inversion Hp].
  - rewrite orb_true_iff, prefix_spec, IH. split.
    + intros [(post & ->)|(pre & post & ->)].
      * by exists ""%string, post.
      * by exists (String a pre), post.
    + intros ([|b pre] & post & Hp).
      * left. eauto.
      * right. inversion Hp. eauto.
Qed.

Lemma snd_unique_name {A} (l : list (A * nat)) n1 n2 p :
  NoDup (l.*2) → (n1, p) ∈ l → (n2, p) ∈ l → n1 = n2.
Proof.
  intros Hnd (k1 & Hk1)%list_elem_of_lookup (k2 & Hk2)%list_elem_of_lookup.
  assert (k1 = k2) as ->; [|congruence].
  eapply NoDup_lookup; [exact Hnd|..]; rewrite list_lookup_fmap.
  - by rewrite Hk1.
  - by rewrite Hk2.
Qed.

Section ParamGroupsFacts.
Context `{Backend}.

(** X9.  The three parameter groups [Trainer.__init__] hands to the
    optimizer hold every parameter of the model and of its encoder, and
    none twice, provided the encoder lists each of its parameters once.
    An encoder parameter goes to the group with weight decay [0.0]
    exactly when its name contains [bias] or [LayerNorm.weight], and to
    the group with the configured weight decay otherwise. *)
Theorem param_groups_partition (bert_named : list (string * nat))
    (model_params : list nat) (blr lr wd zero : score) :
  NoDup (bert_named.*2) →
  let groups := param_groups bert_named model_params blr lr wd zero in
  NoDup (concat (pg_params <$> groups))
  ∧ (∀ p, p ∈ concat (pg_params <$> groups) ↔ p ∈ bert_named.*2 ∨ p ∈ model_params)
  ∧ (∀ n p, (n, p) ∈ bert_named →
       ∃ g, p ∈ pg_params g
         ∧ pg_lr g = blr
         ∧ if is_no_decay n
           then groups !! 1 = Some g ∧ pg_weight_decay g = zero
           else groups !! 0 = Some g ∧ pg_weight_decay g = wd)
  ∧ (∀ n, is_no_decay n = true ↔
          ∃ pre post, n = pre +:+ "bias" +:+ post
                      ∨ n = pre +:+ "LayerNorm.weight" +:+ post).
Proof.
  intros Hnd groups. subst groups. unfold param_groups. simpl.
  rewrite app_nil_r.
  set (dec := filter (λ np : string * nat, is_no_decay np.1 = false) bert_named).
  set (nodec := filter (λ np : string * nat, is_no_decay np.1 = true) bert_named).
  set (others := elements (list_to_set model_params ∖ list_to_set bert_named.*2
                           : gset nat)).
  assert (∀ p, p ∈ dec.*2 ↔ ∃ n, (n, p) ∈ bert_named ∧ is_no_decay n = false) as Hdec.
  { intros p. unfold dec. rewrite list_elem_of_fmap. split.
    - intros ([n p'] & -> & [? ?]%list_elem_of_filter). eauto.
    - intros (n & Hin & Hn). exists (n, p). split; [done|].
      by apply list_elem_of_filter. }
  assert (∀ p, p ∈ nodec.*2 ↔ ∃ n, (n, p) ∈ bert_named ∧ is_no_decay n = true)
    as Hnodec.
  { intros p. unfold nodec. rewrite list_elem_of_fmap. split.
    - intros ([n p'] & -> & [? ?]%list_elem_of_filter). eauto.
    - intros (n & Hin & Hn). exists (n, p). split; [done|].
      by apply list_elem_of_filter. }
  assert (∀ p, p ∈ others ↔ p ∈ model_params ∧ p ∉ bert_named.*2) as Hothers.
  { intros p. unfold others. rewrite elem_of_elements, elem_of_difference.
    by rewrite !elem_of_list_to_set. }
  assert (∀ n p, (n, p) ∈ bert_named → p ∈ bert_named.*2) as Hbert.
  { intros n p Hin. apply list_elem_of_fmap. by exists (n, p). }
  split_and!.
  - apply NoDup_app. split_and!.
    + eapply sublist_NoDup; [exact Hnd|]. apply fmap_sublist, sublist_filter.
    + intros p (n1 & Hin1 & Hn1)%Hdec [(n2 & Hin2 & Hn2)%Hnodec|[_ Hno]%Hothers]%elem_of_app.
      * assert (n1 = n2) as -> by eauto using snd_unique_name. congruence.
      * apply Hno. eauto.
    + apply NoDup_app. split_and!.
      * eapply sublist_NoDup; [exact Hnd|]. apply fmap_sublist, sublist_filter.
      * intros p (n1 & Hin1 & Hn1)%Hnodec [_ Hno]%Hothers. apply Hno. eauto.
      * apply NoDup_elements.
  - intros p. rewrite !elem_of_app, Hdec, Hnodec, Hothers. split.
    + intros [(n & ? & ?)|[(n & ? & ?)|[? ?]]]; eauto.
    + intros [Hb|Hm].
      * apply list_elem_of_fmap in Hb as ([n p'] & -> & Hin). simpl.
        destruct (is_no_decay n) eqn:Hn; eauto 6.
      * destruct (decide (p ∈ bert_named.*2)) as [Hb|Hb]; [|by eauto].
        apply list_elem_of_fmap in Hb as ([n p'] & -> & Hin). simpl.
        destruct (is_no_decay n) eqn:Hn; eauto 6.
  - intros n p Hin. destruct (is_no_decay n) eqn:Hn.
    + exists {| pg_params := nodec.*2; pg_lr := blr; pg_weight_decay := zero |}.
      split_and!; [|done..]. simpl. apply Hnodec. eauto.
    + exists {| pg_params := dec.*2; pg_lr := blr; pg_weight_decay := wd |}.
      split_and!; [|done..]. simpl. apply Hdec. eauto.
  - intros n. unfold is_no_decay, no_decay. simpl.
    rewrite orb_false_r, orb_true_iff, !contains_spec. naive_solver.
Qed.

End ParamGroupsFacts.

(** ** The main block *)

Lemma drop_empty_foldl (ori_data acc : list datum) :
  foldl (λ temp_list data,
           if length (d_sentence data) =? 0 then temp_list
           else temp_list ++ [data]) acc ori_data
  = acc ++ filter (λ d, d_sentence d ≠ []) ori_data.
Proof.
  revert acc. induction ori_data as [|d rest IH]; intros acc; simpl.
  { by rewrite app_nil_r. }
  rewrite IH. destruct (d_sentence d) as [|tok toks] eqn:Hs; simpl.
  - by rewrite filter_cons_False by (rewrite Hs; auto).
  - rewrite filter_cons_True by (by rewrite Hs). by rewrite <-app_assoc.
Qed.

(** X10.  The loop of the main block that prepares [ori_data] keeps
    exactly the records whose sentence is not empty, in their original
    order: no record with an empty sentence reaches [predict], no other
    record is dropped, and data without empty sentences is unchanged. *)
Theorem drop_empty_spec (ori_data : list datum) :
  drop_empty ori_data = filter (λ d, d_sentence d ≠ []) ori_data
  ∧ Forall (λ d, d_sentence d ≠ []) (drop_empty ori_data)
  ∧ drop_empty ori_data `sublist_of` ori_data
  ∧ (∀ d, d ∈ ori_data → d_sentence d ≠ [] → d ∈ drop_empty ori_data)
  ∧ (Forall (λ d, d_sentence d ≠ []) ori_data → drop_empty ori_data = ori_data).
Proof.
  assert (drop_empty ori_data = filter (λ d, d_sentence d ≠ []) ori_data) as Heq.
  { unfold drop_empty. by rewrite drop_empty_foldl. }
  rewrite Heq. split_and!.
  - done.
  - apply Forall_forall. by intros d [? _]%list_elem_of_filter.
  - apply sublist_filter.
  - intros d Hin Hne. by apply list_elem_of_filter.
  - intros Hall. induction Hall as [|d rest Hd _ IH]; [done|].
    rewrite filter_cons_True by done. f_equal. apply IH.
    unfold drop_empty. by rewrite drop_empty_foldl.
Qed.

Lemma batches_of_lookup {A} (bs : nat) : ∀ (fuel : nat) (l : list A) (k : nat),
  0 < bs → length l ≤ fuel →
  batches_of fuel bs l !! k
  = (if decide (k * bs < length l) then Some (take bs (drop (k * bs) l)) else None).
Proof.
  induction fuel as [|fuel IH]; intros l k Hbs Hlen.
  - destruct l; [|simpl in Hlen; lia].
    by rewrite decide_False by (simpl; lia).
  - destruct l as [|x l].
    { by rewrite decide_False by (simpl; lia). }
    cbn [batches_of]. destruct k as [|k].
    + simpl. done.
    + cbn [lookup list_lookup]. rewrite IH; [|done|].
      * rewrite length_drop, drop_drop.
        replace (bs + k * bs) with (S k * bs) by lia.
        repeat case_decide; (done || lia).
      * rewrite length_drop. simpl in *. lia.
Qed.

Lemma batches_of_cover {A} (bs : nat) : ∀ (fuel : nat) (l : list A),
  0 < bs → length l ≤ fuel → length l ≤ length (batches_of fuel bs l) * bs.
Proof.
  induction fuel as [|fuel IH]; intros l Hbs Hlen.
  - destruct l; simpl in *; lia.
  - destruct l as [|x l]; [simpl; lia|].
    cbn [batches_of length].
    specialize (IH (drop bs (x :: l)) Hbs).
    rewrite length_drop in IH. simpl in *. lia.
Qed.

(** X11.  A loader built as in the main block ([shuffle=False],
    [drop_last=False], positive batch size) over a dataset with as many
    items as there are sentences lines up with the slices of [predict]:
    batch number k is made of the items k*batch_size onwards, is not
    empty, and has exactly as many items as data[k*batch_size :
    (k+1)*batch_size] has sentences; and the batches reach the end of
    the data. *)
Theorem DataLoader_alignment {A B} (dataset : list A) (data : list datum)
    (bs : nat) (collate_fn : list A → B) :
  0 < bs →
  length dataset = length data →
  length data ≤ length (DataLoader dataset bs collate_fn) * bs
  ∧ ∀ k b, DataLoader dataset bs collate_fn !! k = Some b →
      ∃ items, b = collate_fn items
        ∧ items = take bs (drop (k * bs) dataset)
        ∧ items ≠ []
        ∧ length items = length (slice data (k * bs) ((k + 1) * bs)).
Proof.
  intros Hbs Hlen. unfold DataLoader. split.
  - rewrite length_fmap, <-Hlen. by apply batches_of_cover.
  - intros k b Hk. rewrite list_lookup_fmap in Hk.
    rewrite (batches_of_lookup bs) in Hk by done.
    case_decide as Hlt; [|done]. simpl in Hk. injection Hk as <-.
    eexists. split_and!; [done..| |].
    + intros Hnil%(f_equal length).
      rewrite length_take, length_drop in Hnil. simpl in Hnil. lia.
    + unfold slice. rewrite !length_take, !length_drop. lia.
Qed.

Lemma string_length_app (s t : string) :
  String.length (s +:+ t) = String.length s + String.length t.
Proof. induction s as [|a s IH]; simpl; [done | by rewrite IH]. Qed.

Lemma string_app_inj_r (s1 s2 t : string) : s1 +:+ t = s2 +:+ t → s1 = s2.
Proof.
  revert s2. induction s1 as [|a s1 IH]; intros [|b s2] Heq.
  - done.
  - apply (f_equal String.length) in Heq.
    rewrite !string_length_app in Heq. simpl in Heq. lia.
  - apply (f_equal String.length) in Heq.
    rewrite !string_length_app in Heq. simpl in Heq. lia.
  - inversion Heq. f_equal. by apply IH.
Qed.

(** X13.  The twenty runs of the main block write to twenty different
    files: the output paths of two different run numbers differ. *)
Theorem predict_path_for_inj (i j : nat) :
  predict_path_for i = predict_path_for j → i = j.
Proof.
  unfold predict_path_for. intros Heq.
  apply String.app_inj in Heq. apply string_app_inj_r in Heq.
  by apply (inj pretty).
Qed.

Section MainBlock.
Context `{Backend} {A : Type} (ops : Ops) (config : Config).

(** X12.  The main block end to end: with the data filtered by the loop
    of lines 327-332, a loader built over a dataset with as many items
    as sentences are left, and a pass in which every exception comes
    from the model or the decoder while the decoder otherwise returns
    one entity list per item of the batch, [predict] accumulates exactly
    one record per remaining sentence, in order, and none of them has an
    empty sentence. *)
Theorem main_block_one_record_per_sentence (dataset : list A)
    (collate_fn : list A → data_batch) (ori_data : list datum) (w : world) :
  let bs := batch_size config in
  let data := drop_empty ori_data in
  let test_loader := DataLoader dataset bs collate_fn in
  0 < bs →
  length dataset = length data →
  (∀ k b, test_loader !! k = Some b →
     match forward_decode ops (model (trainer w)) b with
     | Ok (_, ents) =>
         length ents = length (take bs (drop (k * bs) dataset))
         ∧ is_ok (batch_records config ents
                    (slice data (k * bs) (k * bs + bs))) = true
     | Raise _ => True
     end) →
  sentence <$> predict_records ops config data test_loader w = d_sentence <$> data
  ∧ Forall (λ rec, sentence rec ≠ []) (predict_records ops config data test_loader w).
Proof.
  intros bs data test_loader Hbs Hlen Hclean.
  assert (sentence <$> predict_records ops config data test_loader w
          = d_sentence <$> data) as Heq.
  { unfold predict_records, predict_loop_end.
    rewrite predict_loop_clean.
    - simpl. rewrite ?drop_0. f_equal. apply take_ge.
      unfold test_loader, DataLoader. rewrite length_fmap, <-Hlen.
      fold bs. by apply batches_of_cover.
    - intros k b Hk. simpl. specialize (Hclean k b Hk). unfold clean_batch.
      destruct (forward_decode ops (model (trainer w)) b) as [[[[c p] r] ents]|e];
        [|done].
      fold bs. destruct Hclean as [Hl Hok]. split; [|done].
      rewrite Hl. unfold slice. rewrite !length_take, !length_drop. lia. }
  split; [done|].
  apply Forall_forall. intros rec Hrec.
  assert (sentence rec ∈ d_sentence <$> data) as Hin.
  { rewrite <-Heq. by apply list_elem_of_fmap_2. }
  apply list_elem_of_fmap in Hin as (d & -> & Hd).
  unfold data, drop_empty in Hd. rewrite drop_empty_foldl in Hd. simpl in Hd.
  by apply list_elem_of_filter in Hd as [? _].
Qed.

End MainBlock.

End MoreFacts.

(** * The further properties at concrete inputs *)

Module MoreRuns.
Import Scripted DriverFacts MoreFacts.

Lemma predict_exact_records_witness :
  length [d2] ≤ length [b_good] * batch_size config
  ∧ sentence <$> predict_records ops config [d2] [b_good] w0 = [["rain"%string]].
Proof.
  split; [vm_compute; lia|].
  refine (predict_exact_records ops config [d2] [b_good] w0 _ _).
  - intros [|k] b Hk; [|done]. injection Hk as <-. vm_compute. by split.
  - vm_compute. lia.
Defined.


Lemma eval_reports_summed_counts_witness :
  [b_good; b_good] ≠ []
  ∧ (eval ops "0" [b_good; b_good] false w0).2 = Ok 0.
Proof.
  split; [discriminate|].
  refine (proj1 (eval_reports_summed_counts ops "0" [b_good; b_good] false w0 _ _)).
  - discriminate.
  - by repeat constructor.
Defined.

Lemma param_groups_partition_witness :
  NoDup [0; 1; 2]
  ∧ NoDup (concat (pg_params <$>
      param_groups [("encoder.layer.0.weight"%string, 0);
                    ("encoder.layer.0.bias"%string, 1);
                    ("encoder.LayerNorm.weight"%string, 2)]
        [0; 1; 2; 3; 4] 1 2 3 0)).
Proof.
  assert (NoDup [0; 1; 2]) as Hnd.
  { repeat constructor; set_solver. }
  split; [exact Hnd|].
  exact (proj1 (param_groups_partition
                  [("encoder.layer.0.weight"%string, 0);
                   ("encoder.layer.0.bias"%string, 1);
                   ("encoder.LayerNorm.weight"%string, 2)]
                  [0; 1; 2; 3; 4] 1 2 3 0 Hnd)).
Defined.

Lemma DataLoader_alignment_witness :
  0 < 2
  ∧ length [10; 20; 30] = length [d0; d1; d2]
  ∧ length [d0; d1; d2] ≤ length (DataLoader [10; 20; 30] 2 (λ items, items)) * 2.
Proof.
  split; [lia|]. split; [reflexivity|].
  exact (proj1 (DataLoader_alignment [10; 20; 30] [d0; d1; d2] 2 (λ items, items)
                  ltac:(lia) eq_refl)).
Defined.

Lemma predict_path_for_inj_witness :
  predict_path_for 3 = predict_path_for 3 ∧ 3 = 3.
Proof.
  split; [reflexivity|].
  exact (predict_path_for_inj 3 3 eq_refl).
Defined.

Lemma main_block_one_record_per_sentence_witness :
  0 < batch_size config
  ∧ length [(); ()] = length (drop_empty [d0; {| d_sentence := [] |}; d2])
  ∧ sentence <$> predict_records ops config
      (drop_empty [d0; {| d_sentence := [] |}; d2])
      (DataLoader [(); ()] (batch_size config)
         (λ items, mk_batch (Some [2; 0; 0; 0])
                     (Some (replicate (length items) [([0], 2)])))) w0
    = [["John"; "lives"]; ["rain"]]%string.
Proof.
  split; [vm_compute; lia|]. split; [reflexivity|].
  refine (proj1 (main_block_one_record_per_sentence ops config [(); ()]
                   (λ items, mk_batch (Some [2; 0; 0; 0])
                               (Some (replicate (length items) [([0], 2)])))
                   [d0; {| d_sentence := [] |}; d2] w0 _ _ _)).
  - vm_compute. lia.
  - reflexivity.
  - intros [|k] b Hk; [|done]. injection Hk as <-. vm_compute. by split.
Defined.


End MoreRuns.
